(** * NoiseChip: square-wave oscillators and an LFSR noise source

    A shallow embedding of [NoiseChip.ino] (an ATtiny85 sketch) and the
    properties of its wave generators, its timer wrapper and its linear
    feedback shift register.

    Integers of the sketch are modelled as [Z] with the wrap-around of
    their C++ type written out: [u8] for [uint8_t], [u16] for [uint16_t].
    On the AVR target [int] is 16 bits wide and [long] is 32 bits wide. *)

From Stdlib Require Import ZArith Lia List Bool QArith Qround.
From stdpp Require Import base gmap list.

Close Scope Q_scope.
Open Scope Z_scope.

(** ** Machine integers *)

Definition u8 (z : Z) : Z := z mod 256.
Definition u16 (z : Z) : Z := z mod 65536.

(** ** class LFSR *)

Module LFSR.

(** [uint16_t reg] is the only member. *)
Record t : Type := mk { reg : Z }.

(** [LFSR(uint16_t seed) : reg(seed) {}] *)
Definition new (seed : Z) : t := {| reg := u16 seed |}.

(** [bool next()].  [b] is a [uint8_t]; [b << 15] is computed in the
    16-bit [int] and joined with the unsigned [reg >> 1], the result is
    stored back into the 16-bit [reg]. *)
Definition next (self : t) : bool * t :=
  let r := reg self in
  let b :=
    u8 (Z.land
          (Z.lxor (Z.lxor (Z.lxor (Z.shiftr r 0) (Z.shiftr r 1))
                          (Z.shiftr r 3))
                  (Z.shiftr r 12))
          1) in
  let r' := u16 (Z.lor (Z.shiftr r 1) (u16 (Z.shiftl b 15))) in
  (negb (b =? 0), {| reg := r' |}).

(** The register is a [uint16_t]. *)
Definition wf (self : t) : Prop := 0 <= reg self < 65536.

(** [n] successive calls on one object: the bits returned, oldest first,
    and the object afterwards. *)
Fixpoint bits (n : nat) (self : t) : list bool :=
  match n with
  | O => []
  | S k => let '(b, self') := next self in b :: bits k self'
  end.

Fixpoint after (n : nat) (self : t) : t :=
  match n with
  | O => self
  | S k => after k (snd (next self))
  end.

(** Several instances live side by side, each with its own [reg]; an
    instance is named by its address.  [call i h] is [obj_i.next()]; a
    name that denotes no object is skipped. *)
Definition call (i : nat) (h : gmap nat t) : option bool * gmap nat t :=
  match h !! i with
  | Some o => let '(b, o') := next o in (Some b, <[i := o']> h)
  | None => (None, h)
  end.

(** A program calling [next()] on the instances in the order given by
    [sched]; the log records which instance returned which bit. *)
Fixpoint run (sched : list nat) (h : gmap nat t)
  : list (nat * bool) * gmap nat t :=
  match sched with
  | [] => ([], h)
  | i :: rest =>
      let '(ob, h') := call i h in
      let '(log, h'') := run rest h' in
      (match ob with Some b => (i, b) :: log | None => log end, h'')
  end.

Fixpoint bits_of (i : nat) (log : list (nat * bool)) : list bool :=
  match log with
  | [] => []
  | (j, b) :: rest =>
      if Nat.eqb j i then b :: bits_of i rest else bits_of i rest
  end.

Fixpoint calls_of (i : nat) (sched : list nat) : nat :=
  match sched with
  | [] => O
  | j :: rest => if Nat.eqb j i then S (calls_of i rest) else calls_of i rest
  end.

End LFSR.

(** [LFSR lsfr1(0xA1e);] *)
Definition lsfr1 : LFSR.t := LFSR.new 0xA1e.

(** ** The hardware the sketch drives

    Timer/Counter0 registers of the ATtiny85 and their bit numbers, as
    [avr/io.h] names them. *)

Inductive reg8 : Type := TCCR0A | TCCR0B | TIMSK | OCR0A | TIFR.

Definition reg8_eqb (a b : reg8) : bool :=
  match a, b with
  | TCCR0A, TCCR0A | TCCR0B, TCCR0B | TIMSK, TIMSK
  | OCR0A, OCR0A | TIFR, TIFR => true
  | _, _ => false
  end.

Definition WGM00 : Z := 0.
Definition WGM01 : Z := 1.
Definition WGM02 : Z := 3.
Definition CS00 : Z := 0.
Definition CS01 : Z := 1.
Definition CS02 : Z := 2.
Definition OCIE0A : Z := 4.
Definition OCF0A : Z := 4.

Definition _BV (bit : Z) : Z := Z.shiftl 1 bit.

(** What the program does to the outside world, in program order: the
    stores to the (volatile) timer registers and the operations on pins. *)
Inductive event : Type :=
| EvWrite (r : reg8) (v : Z)
| EvSetOutput (pin : Z)
| EvSetHigh (pin : Z)
| EvSetLow (pin : Z).

(** Template arguments of [Wave<pin, tick_period_us, frequency>]; the pin
    type [FastPin<n>] is identified with [n]. *)
Record WaveT : Type := mkWave {
  pin : Z;
  tick_period_us : Z;
  frequency : Z
}.

(** Every instantiation of the [Wave] template has one object of its own,
    the function-local static of [getSelf()]; two uses of the same
    instantiation share it. *)
Definition wave_key (w : WaveT) : Z * Z * Z :=
  (pin w, tick_period_us w, frequency w).

Record Machine : Type := mkMachine {
  regs : reg8 -> Z;              (* timer registers *)
  sreg_i : bool;                 (* global interrupt enable *)
  statics : gmap (Z * Z * Z) Z;  (* [counter] of each Wave instantiation *)
  ddr : gset Z;                  (* pins configured as outputs *)
  port : gmap Z bool;            (* level last driven on a pin, true = HIGH *)
  noise : LFSR.t;                (* the global [lsfr1] *)
  trace : list event
}.

(** State after reset: registers cleared, statics not yet constructed
    (a [Wave] object is zero-initialised on first use), nothing driven. *)
Definition reset : Machine :=
  {| regs := fun _ => 0; sreg_i := false; statics := ∅; ddr := ∅;
     port := ∅; noise := lsfr1; trace := [] |}.

(** *** State monad *)

Definition M (A : Type) : Type := Machine -> A * Machine.

#[global] Instance M_ret : MRet M := fun A (a : A) m => (a, m).
#[global] Instance M_bind : MBind M :=
  fun A B (f : A -> M B) (c : M A) m => let '(a, m') := c m in f a m'.

Definition exec {A} (c : M A) (m : Machine) : Machine := snd (c m).

Definition read (r : reg8) : M Z := fun m => (regs m r, m).

(** A store to an 8-bit register.  The flags of [TIFR] are cleared by
    writing a one to them and are unaffected by a zero. *)
Definition store (r : reg8) (v : Z) (old : Z) : Z :=
  match r with
  | TIFR => Z.land old (Z.lnot (u8 v))
  | _ => u8 v
  end.

Definition write (r : reg8) (v : Z) : M unit := fun m =>
  (tt, {| regs := fun r' => if reg8_eqb r r' then store r v (regs m r)
                           else regs m r';
          sreg_i := sreg_i m; statics := statics m;
          ddr := ddr m; port := port m; noise := noise m;
          trace := trace m ++ [EvWrite r (u8 v)] |}).

Definition sei : M unit := fun m =>
  (tt, {| regs := regs m; sreg_i := true; statics := statics m;
          ddr := ddr m; port := port m; noise := noise m;
          trace := trace m |}).

(** *** FastPin

    Modelled from the spec: the a21 library's [FastPin<n>] is not part of
    the sketch; it is the digital output line of the specification, with
    [setOutput()], [setHigh()], [setLow()] and
    [write(bit) = bit ? setHigh() : setLow()]. *)
Module FastPin.

Definition setOutput (n : Z) : M unit := fun m =>
  (tt, {| regs := regs m; sreg_i := sreg_i m; statics := statics m;
          ddr := {[ n ]} ∪ ddr m; port := port m; noise := noise m;
          trace := trace m ++ [EvSetOutput n] |}).

Definition drive (n : Z) (level : bool) : M unit := fun m =>
  (tt, {| regs := regs m; sreg_i := sreg_i m; statics := statics m;
          ddr := ddr m; port := <[ n := level ]> (port m);
          noise := noise m;
          trace := trace m ++ [if level then EvSetHigh n else EvSetLow n] |}).

Definition setHigh (n : Z) : M unit := drive n true.
Definition setLow (n : Z) : M unit := drive n false.
Definition write (n : Z) (bit : bool) : M unit :=
  if bit then setHigh n else setLow n.

End FastPin.

(** Level of a pin; a pin nobody has driven yet reads LOW. *)
Definition level (n : Z) (m : Machine) : bool := default false (port m !! n).

(** ** template class Wave *)

Module Wave.

(** [static const uint8_t period_ticks =
       (1000000L / frequency) / tick_period_us;]
    The divisions are those of non-negative [long]s; the initialiser is
    narrowed to [uint8_t]. *)
Definition period_ticks (w : WaveT) : Z :=
  u8 ((1000000 / frequency w) / tick_period_us w).

(** [static const uint8_t half_period_ticks = period_ticks / 2;] *)
Definition half_period_ticks (w : WaveT) : Z :=
  u8 (period_ticks w / 2).

(** The template arguments are [uint16_t]; a zero divisor in the
    constant initialiser does not compile. *)
Definition wf (w : WaveT) : Prop :=
  0 < tick_period_us w < 65536 /\ 0 < frequency w < 65536.

(** [getSelf().counter] *)
Definition counter (w : WaveT) (m : Machine) : Z :=
  default 0 (statics m !! wave_key w).

Definition get_counter (w : WaveT) : M Z := fun m => (counter w m, m).

Definition set_counter (w : WaveT) (v : Z) : M unit := fun m =>
  (tt, {| regs := regs m; sreg_i := sreg_i m;
          statics := <[ wave_key w := u8 v ]> (statics m);
          ddr := ddr m; port := port m; noise := noise m;
          trace := trace m |}).

(** [static void tick()] *)
Definition tick (w : WaveT) : M unit :=
  c ← get_counter w;
  (if c <=? period_ticks w
   then set_counter w (c + 1)
   else set_counter w 0);;
  c' ← get_counter w;
  if c' <=? half_period_ticks w
  then FastPin.setHigh (pin w)
  else FastPin.setLow (pin w).

(** [static void begin()] *)
Definition begin (w : WaveT) : M unit :=
  FastPin.setOutput (pin w);;
  tick w.

End Wave.

(** ** Handlers of the timer: [NoHandler] or a [Wave] *)

Inductive Handler : Type :=
| NoHandler
| WaveH (w : WaveT).

Definition Handler_begin (h : Handler) : M unit :=
  match h with
  | NoHandler => mret tt
  | WaveH w => Wave.begin w
  end.

Definition Handler_tick (h : Handler) : M unit :=
  match h with
  | NoHandler => mret tt
  | WaveH w => Wave.tick w
  end.

(** ** template class Timer *)

Record TimerT : Type := mkTimer {
  period_us : Z;
  Handler1 : Handler;
  Handler2 : Handler;
  Handler3 : Handler;
  Handler4 : Handler
}.

Module Timer.

(** [static void inline handleCOMPA()] *)
Definition handleCOMPA (T : TimerT) : M unit :=
  Handler_tick (Handler1 T);;
  Handler_tick (Handler2 T);;
  Handler_tick (Handler3 T);;
  Handler_tick (Handler4 T);;
  f ← read TIFR;
  write TIFR (Z.lor f (_BV OCF0A)).

(** [static void begin()] *)
Definition begin (T : TimerT) : M unit :=
  write TCCR0A 0;;
  write TCCR0B 0;;
  a ← read TCCR0A;
  write TCCR0A (Z.lor a (Z.lor (Z.shiftl 1 WGM01) (Z.shiftl 0 WGM00)));;
  b ← read TCCR0B;
  write TCCR0B (Z.lor b (Z.shiftl 0 WGM02));;
  write TIMSK (_BV OCIE0A);;
  write OCR0A (period_us T);;
  b' ← read TCCR0B;
  write TCCR0B
    (Z.lor b' (Z.lor (Z.lor (Z.shiftl 0 CS02) (Z.shiftl 1 CS01))
                     (Z.shiftl 0 CS00)));;
  Handler_begin (Handler1 T);;
  Handler_begin (Handler2 T);;
  Handler_begin (Handler3 T);;
  Handler_begin (Handler4 T).

End Timer.

(** ** The configured program *)

Definition timer_period_us : Z := 25.

Definition wave0 : WaveT := mkWave 0 timer_period_us 1049.
Definition wave1 : WaveT := mkWave 1 timer_period_us 717.
Definition wave2 : WaveT := mkWave 2 timer_period_us 261.
Definition wave3 : WaveT := mkWave 3 timer_period_us 392.

Definition timer : TimerT :=
  mkTimer timer_period_us (WaveH wave0) (WaveH wave1) (WaveH wave2) (WaveH wave3).

(** [ISR(TIM0_COMPA_vect, ISR_BLOCK)] *)
Definition ISR_TIM0_COMPA : M unit := Timer.handleCOMPA timer.

Definition NoisePin : Z := 4.

(** [lsfr1.next()] on the global object. *)
Definition lsfr1_next : M bool := fun m =>
  let '(b, o) := LFSR.next (noise m) in
  (b, {| regs := regs m; sreg_i := sreg_i m; statics := statics m;
         ddr := ddr m; port := port m; noise := o; trace := trace m |}).

(** [setup()], for any instantiation of the [Timer] template in the place
    of [timer]; the sketch itself runs [setup]. *)
Definition setup_with (T : TimerT) : M unit :=
  FastPin.setOutput NoisePin;;
  Timer.begin T.

Definition setup : M unit := setup_with timer.

Definition loop : M unit :=
  b ← lsfr1_next;
  FastPin.write NoisePin b.

(** The part of [main] before its endless loop: [setup(); sei();]. *)
Definition main_init (T : TimerT) : M unit :=
  setup_with T;;
  sei.

(** The compare-match interrupt is taken when interrupts are enabled
    globally, the compare-match A interrupt is enabled and the timer's
    clock is selected ([CS02:0] not all zero). *)
Definition timer_running (m : Machine) : bool :=
  sreg_i m
  && Z.testbit (regs m TIMSK) OCIE0A
  && negb (Z.land (regs m TCCR0B) 7 =? 0).

(** The feedback taps of the register: bits 0, 1, 3 and 12. *)
Definition taps (s : Z) : bool :=
  xorb (xorb (xorb (Z.testbit s 0) (Z.testbit s 1)) (Z.testbit s 3))
       (Z.testbit s 12).

(** ** Observing a wave over time *)

(** State of [getSelf().counter] after one [tick()], as a function of the
    value before; and the level [tick()] drives for a counter value. *)
Definition next_counter (w : WaveT) (c : Z) : Z :=
  if c <=? Wave.period_ticks w then u8 (c + 1) else u8 0.

Definition output_of (w : WaveT) (c : Z) : bool :=
  c <=? Wave.half_period_ticks w.

(** [n] calls of [tick()]. *)
Definition ticks (n : nat) (w : WaveT) (m : Machine) : Machine :=
  Nat.iter n (exec (Wave.tick w)) m.

Definition counter_after (w : WaveT) (n : nat) : Z :=
  Wave.counter w (ticks n w reset).

Definition output_after (w : WaveT) (n : nat) : bool :=
  level (pin w) (ticks n w reset).

(** The levels seen on the pin after each of the next [n] calls. *)
Fixpoint outputs (n : nat) (w : WaveT) (m : Machine) : list bool :=
  match n with
  | O => []
  | S k => let m' := exec (Wave.tick w) m in level (pin w) m' :: outputs k w m'
  end.

(** The same levels computed from the counter alone. *)
Fixpoint levels_from (n : nat) (w : WaveT) (c : Z) : list bool :=
  match n with
  | O => []
  | S k => let c' := next_counter w c in output_of w c' :: levels_from k w c'
  end.

(** Edges and HIGH samples in a sequence of levels; [prev] is the level
    before the first sample. *)
Fixpoint falls (prev : bool) (l : list bool) : nat :=
  match l with
  | [] => O
  | x :: r => ((if prev && negb x then 1 else 0) + falls x r)%nat
  end.

Fixpoint rises (prev : bool) (l : list bool) : nat :=
  match l with
  | [] => O
  | x :: r => ((if negb prev && x then 1 else 0) + rises x r)%nat
  end.

Fixpoint highs (l : list bool) : nat :=
  match l with
  | [] => O
  | x :: r => ((if x then 1 else 0) + highs r)%nat
  end.

(** Length of the counter's cycle: the counter runs up to
    [period_ticks + 1] before it is reset, unless the 8-bit increment
    wraps first. *)
Definition cycle_ticks (w : WaveT) : Z :=
  Z.min (Wave.period_ticks w + 2) 256.

(** A wave whose period fills the 8-bit constant:
    [(1000000 / 3921) / 1 = 255]. *)
Definition wave255 : WaveT := mkWave 0 1 3921.

(** A wave faster than the timer itself:
    [(1000000 / 50000) / 25 = 0]. *)
Definition wave_faster : WaveT := mkWave 0 timer_period_us 50000.

(** A wave too slow for the 8-bit constant:
    [(1000000 / 100) / 25 = 400], stored as [400 - 256 = 144]. *)
Definition wave_slow : WaveT := mkWave 0 timer_period_us 100.

(** Another wave with [period_ticks = 255]:
    [(1000000 / 196) / 20 = 5102 / 20 = 255]. *)
Definition wave_wrap : WaveT := mkWave 0 20 196.

(** The pin operation [tick()] ends with, for the counter it has just
    stored. *)
Definition tick_event (w : WaveT) (c : Z) : event :=
  if c <=? Wave.half_period_ticks w then EvSetHigh (pin w)
  else EvSetLow (pin w).

(** A wave too fast for the timer: [(1000000 / 40000) / 25 = 1]. *)
Definition wave_fast : WaveT := mkWave 0 timer_period_us 40000.

Definition timer_fast : TimerT :=
  mkTimer timer_period_us (WaveH wave_fast) NoHandler NoHandler NoHandler.

(** [P] is the least positive period of the sequence [f]. *)
Definition exact_period (f : nat -> Z) (P : nat) : Prop :=
  (0 < P)%nat
  /\ (forall n, f (n + P)%nat = f n)
  /\ (forall k, (0 < k < P)%nat -> exists n, f (n + k)%nat <> f n).

(** The period as the specification words it:
    [round(1 / (frequency * tickPeriod))], with the frequency in Hz, the
    tick period in microseconds and rounding to the nearest integer. *)
Definition round_nearest (q : Q) : Z := Qfloor (q + (1 # 2))%Q.

Definition spec_period_ticks (tick_us freq : Z) : Z :=
  round_nearest
    (1 / (inject_Z freq * (inject_Z tick_us / inject_Z 1000000)))%Q.

(** ** Observing the timer *)

Definition handlers (T : TimerT) : list Handler :=
  [Handler1 T; Handler2 T; Handler3 T; Handler4 T].

Fixpoint waves_of (hs : list Handler) : list WaveT :=
  match hs with
  | [] => []
  | NoHandler :: r => waves_of r
  | WaveH w :: r => w :: waves_of r
  end.

(** Calling [tick()] on a sequence of handlers, first to last. *)
Definition tick_all (hs : list Handler) (m : Machine) : Machine :=
  fold_left (fun m' h => exec (Handler_tick h) m') hs m.

(** The one pin operation a call of [tick()] performs. *)
Definition drives (e : event) (w : WaveT) : Prop :=
  e = EvSetHigh (pin w) \/ e = EvSetLow (pin w).

(** A start-up that refuses wave periods below two ticks would not leave
    the timer running for a configuration that has one. *)
Definition degenerate (T : TimerT) : Prop :=
  exists w, w ∈ waves_of (handlers T) /\ Wave.period_ticks w < 2.

Definition rejects_degenerate (T : TimerT) : Prop :=
  degenerate T -> timer_running (exec (main_init T) reset) = false.

(** ** Observing the noise source and the whole program *)

(** The bit handed out by call number [n] (counted from 0) on an object
    that started as [self]. *)
Definition LFSR_out (n : nat) (self : LFSR.t) : bool :=
  fst (LFSR.next (LFSR.after n self)).

(** What [NoisePin::write(bit)] does to the pin. *)
Definition noise_event (bit : bool) : event :=
  if bit then EvSetHigh NoisePin else EvSetLow NoisePin.

(** [n] iterations of [loop()]. *)
Definition loops (n : nat) (m : Machine) : Machine :=
  Nat.iter n (exec loop) m.

(** Calling [begin()] on a sequence of handlers, first to last. *)
Definition begin_all (hs : list Handler) (m : Machine) : Machine :=
  fold_left (fun m' h => exec (Handler_begin h) m') hs m.

(** What runs after [main]'s initialisation: iterations of [loop()] with
    runs of the compare-match handler between them, each run to its end
    (the handler blocks further interrupts). *)
Inductive activity : Type := Fire | Loop.

Definition act (T : TimerT) (a : activity) (m : Machine) : Machine :=
  match a with
  | Fire => exec (Timer.handleCOMPA T) m
  | Loop => exec loop m
  end.

Definition interleave (T : TimerT) (s : list activity) (m : Machine)
  : Machine :=
  fold_left (fun m' a => act T a m') s m.

Fixpoint fires (s : list activity) : nat :=
  match s with
  | [] => O
  | Fire :: r => S (fires r)
  | Loop :: r => fires r
  end.

Fixpoint iterations (s : list activity) : nat :=
  match s with
  | [] => O
  | Fire :: r => iterations r
  | Loop :: r => S (iterations r)
  end.

(** * Properties of the LFSR *)

Section LFSR_facts.

Lemma land_1_testbit (x : Z) : Z.land x 1 = Z.b2z (Z.testbit x 0).
Proof.
  change 1 with (Z.ones 1). rewrite Z.land_ones by lia.
  change (2 ^ 1) with 2. symmetry. apply Z.bit0_mod.
Qed.

Lemma u8_b2z (b : bool) : u8 (Z.b2z b) = Z.b2z b.
Proof. destruct b; reflexivity. Qed.

Lemma b2z_nonzero (b : bool) : negb (Z.b2z b =? 0) = b.
Proof. destruct b; reflexivity. Qed.

Lemma feedback_bit (r : Z) :
  u8 (Z.land
        (Z.lxor (Z.lxor (Z.lxor (Z.shiftr r 0) (Z.shiftr r 1))
                        (Z.shiftr r 3))
                (Z.shiftr r 12))
        1) = Z.b2z (taps r).
Proof.
  rewrite land_1_testbit, !Z.lxor_spec, !Z.shiftr_spec by lia.
  apply u8_b2z.
Qed.

Lemma next_fst (self : LFSR.t) : fst (LFSR.next self) = taps (LFSR.reg self).
Proof.
  unfold LFSR.next. cbn [fst]. rewrite feedback_bit. apply b2z_nonzero.
Qed.

Lemma testbit_u16_high (s : Z) (i : Z) :
  0 <= s < 65536 -> 16 <= i -> Z.testbit s i = false.
Proof.
  intros Hs Hi. rewrite <- (Z.mod_small s (2 ^ 16)) by (change (2 ^ 16) with 65536; lia).
  apply Z.mod_pow2_bits_high. lia.
Qed.

Lemma testbit_32768 (i : Z) : 0 <= i -> Z.testbit 32768 i = (i =? 15).
Proof.
  intros Hi. change 32768 with (2 ^ 15). rewrite Z.pow2_bits_eqb by lia.
  rewrite Z.eqb_sym. reflexivity.
Qed.

(** Bits of the register after [next()]. *)
Lemma next_snd_bits (s : Z) (i : Z) :
  0 <= s < 65536 -> 0 <= i ->
  Z.testbit (LFSR.reg (snd (LFSR.next (LFSR.mk s)))) i =
    if i =? 15 then taps s
    else if i <? 15 then Z.testbit s (i + 1) else false.
Proof.
  intros Hs Hi. unfold LFSR.next. cbn [snd LFSR.reg]. rewrite feedback_bit.
  unfold u16. change 65536 with (2 ^ 16).
  destruct (Z.ltb_spec i 16) as [Hlt | Hge].
  - rewrite Z.mod_pow2_bits_low by lia.
    rewrite Z.lor_spec, Z.shiftr_spec by lia.
    assert (Hb : Z.testbit (Z.shiftl (Z.b2z (taps s)) 15 mod 2 ^ 16) i
                 = taps s && (i =? 15)).
    { destruct (taps s); cbn [Z.b2z andb].
      - change (Z.shiftl 1 15 mod 2 ^ 16) with 32768.
        apply testbit_32768; lia.
      - change (Z.shiftl 0 15 mod 2 ^ 16) with 0. apply Z.bits_0. }
    rewrite Hb.
    destruct (Z.eqb_spec i 15) as [-> | Hne].
    + change (15 + 1) with 16.
      rewrite (testbit_u16_high s 16) by lia.
      rewrite andb_true_r. reflexivity.
    + rewrite andb_false_r, orb_false_r.
      destruct (Z.ltb_spec i 15); [reflexivity | lia].
  - rewrite Z.mod_pow2_bits_high by lia.
    destruct (Z.eqb_spec i 15); [lia |].
    destruct (Z.ltb_spec i 15); [lia | reflexivity].
Qed.

Lemma next_wf (self : LFSR.t) : LFSR.wf (snd (LFSR.next self)).
Proof.
  unfold LFSR.wf, LFSR.next. cbn [snd LFSR.reg]. unfold u16.
  apply Z.mod_pos_bound. lia.
Qed.

Lemma new_wf (seed : Z) : LFSR.wf (LFSR.new seed).
Proof. unfold LFSR.wf, LFSR.new, u16. cbn. apply Z.mod_pos_bound. lia. Qed.

(** The register after [next()] as a number. *)
Lemma next_snd_value (s : Z) :
  0 <= s < 65536 ->
  LFSR.reg (snd (LFSR.next (LFSR.mk s))) =
    s / 2 + (if taps s then 32768 else 0).
Proof.
  intros Hs.
  assert (Hlo : 0 <= s / 2 < 32768).
  { split; [apply Z.div_pos; lia | apply Z.div_lt_upper_bound; lia]. }
  apply Z.bits_inj'. intros i Hi.
  rewrite next_snd_bits by assumption.
  destruct (taps s).
  - rewrite (Z.add_nocarry_lxor (s / 2) 32768).
    + rewrite Z.lxor_spec, testbit_32768 by lia.
      rewrite <- Z.shiftr_div_pow2 with (n := 1) by lia.
      rewrite Z.shiftr_spec by lia.
      destruct (Z.eqb_spec i 15) as [-> | Hne].
      * change (15 + 1) with 16. rewrite (testbit_u16_high s 16) by lia.
        reflexivity.
      * rewrite xorb_false_r.
        destruct (Z.ltb_spec i 15); [reflexivity |].
        symmetry. apply testbit_u16_high; lia.
    + apply Z.bits_inj'. intros j Hj.
      rewrite Z.land_spec, testbit_32768, Z.bits_0 by lia.
      destruct (Z.eqb_spec j 15) as [-> | Hne].
      * rewrite <- Z.shiftr_div_pow2 with (n := 1) by lia.
        rewrite Z.shiftr_spec by lia. change (15 + 1) with 16.
        rewrite (testbit_u16_high s 16) by lia. reflexivity.
      * apply andb_false_r.
  - rewrite Z.add_0_r.
    rewrite <- Z.shiftr_div_pow2 with (n := 1) by lia.
    rewrite Z.shiftr_spec by lia.
    destruct (Z.eqb_spec i 15) as [-> | Hne].
    + change (15 + 1) with 16. symmetry. apply testbit_u16_high; lia.
    + destruct (Z.ltb_spec i 15); [reflexivity |].
      symmetry. apply testbit_u16_high; lia.
Qed.

End LFSR_facts.

(** C6. For every 16-bit state [s], [next()] returns
    [b = s[0] xor s[1] xor s[3] xor s[12]], and the new state is [s]
    shifted right by one with [b] at bit 15: bit 15 is [b], every bit
    [i < 15] is bit [i + 1] of [s], nothing lies above bit 15.  For the
    seed [0xA1E] the first bit returned is
    [((0xA1E) ^ (0xA1E>>1) ^ (0xA1E>>3) ^ (0xA1E>>12)) & 1]. *)
Theorem C6_next_shifts_in_feedback (s : Z) (Hs : 0 <= s < 65536) :
  let r := LFSR.next (LFSR.mk s) in
  let b :=
    xorb (xorb (xorb (Z.testbit s 0) (Z.testbit s 1)) (Z.testbit s 3))
         (Z.testbit s 12) in
  fst r = b
  /\ Z.testbit (LFSR.reg (snd r)) 15 = b
  /\ (forall i, 0 <= i < 15 ->
        Z.testbit (LFSR.reg (snd r)) i = Z.testbit s (i + 1))
  /\ (forall i, 16 <= i -> Z.testbit (LFSR.reg (snd r)) i = false)
  /\ LFSR.reg (snd r) = Z.lor (Z.shiftr s 1) (Z.shiftl (Z.b2z b) 15)
  /\ Z.b2z (fst (LFSR.next lsfr1)) =
       Z.land (Z.lxor (Z.lxor (Z.lxor 0xA1E (Z.shiftr 0xA1E 1))
                              (Z.shiftr 0xA1E 3))
                      (Z.shiftr 0xA1E 12)) 1.
Proof.
  cbv zeta. fold (taps s). repeat split.
  - apply next_fst.
  - rewrite next_snd_bits by lia. reflexivity.
  - intros i Hi. rewrite next_snd_bits by lia.
    destruct (Z.eqb_spec i 15); [lia |].
    destruct (Z.ltb_spec i 15); [reflexivity | lia].
  - intros i Hi. rewrite next_snd_bits by lia.
    destruct (Z.eqb_spec i 15); [lia |].
    destruct (Z.ltb_spec i 15); [lia | reflexivity].
  - apply Z.bits_inj'. intros i Hi.
    rewrite next_snd_bits, Z.lor_spec, Z.shiftr_spec by lia.
    destruct (taps s); cbn [Z.b2z].
    + change (Z.shiftl 1 15) with 32768. rewrite testbit_32768 by lia.
      destruct (Z.eqb_spec i 15) as [-> | Hne].
      * apply eq_sym, orb_true_r.
      * rewrite orb_false_r.
        destruct (Z.ltb_spec i 15); [reflexivity |].
        symmetry. apply testbit_u16_high; lia.
    + change (Z.shiftl 0 15) with 0. rewrite Z.bits_0, orb_false_r.
      destruct (Z.eqb_spec i 15) as [-> | Hne].
      * change (15 + 1) with 16. symmetry. apply testbit_u16_high; lia.
      * destruct (Z.ltb_spec i 15); [reflexivity |].
        symmetry. apply testbit_u16_high; lia.
Qed.

Lemma C6_witness :
  let r := LFSR.next (LFSR.mk 0xA1E) in
  fst r = false /\ LFSR.reg (snd r) = 0x50F.
Proof.
  pose proof (C6_next_shifts_in_feedback 0xA1E ltac:(lia)) as H.
  cbv zeta in H. destruct H as (H1 & _ & _ & _ & H5 & _).
  split; [exact H1 | exact H5].
Defined.

Section LFSR_runs.

Lemma next_nonzero (s : Z) :
  0 < s < 65536 -> LFSR.reg (snd (LFSR.next (LFSR.mk s))) <> 0.
Proof.
  intros Hs. rewrite next_snd_value by lia.
  assert (Hdiv : 0 <= s / 2) by (apply Z.div_pos; lia).
  destruct (taps s) eqn:Ht; [lia |].
  intros Hz. assert (Hs1 : s = 1).
  { assert (s / 2 = 0) as Hq by lia.
    apply Z.div_small_iff in Hq; lia. }
  subst s. discriminate Ht.
Qed.

Lemma after_nonzero (n : nat) :
  forall self, LFSR.wf self -> LFSR.reg self <> 0 ->
               LFSR.reg (LFSR.after n self) <> 0.
Proof.
  induction n as [| n IH]; intros [s] Hwf Hnz; cbn [LFSR.after]; [exact Hnz |].
  unfold LFSR.wf in Hwf. cbn [LFSR.reg] in Hwf, Hnz.
  apply IH; [apply next_wf | apply next_nonzero; lia].
Qed.

Lemma calls_of_head (i j : nat) (rest : list nat) :
  LFSR.calls_of i (j :: rest) =
    if Nat.eqb j i then S (LFSR.calls_of i rest) else LFSR.calls_of i rest.
Proof. reflexivity. Qed.

(** What one instance returns and ends in depends only on its own state
    and on how often it was called, whatever else ran in between. *)
Lemma run_instance (sched : list nat) :
  forall (h : gmap nat LFSR.t) (i : nat) (o : LFSR.t),
    h !! i = Some o ->
    LFSR.bits_of i (fst (LFSR.run sched h)) = LFSR.bits (LFSR.calls_of i sched) o
    /\ snd (LFSR.run sched h) !! i = Some (LFSR.after (LFSR.calls_of i sched) o).
Proof.
  induction sched as [| j rest IH]; intros h i o Hi; [split; [reflexivity | exact Hi] |].
  rewrite calls_of_head. cbn [LFSR.run]. unfold LFSR.call.
  destruct (h !! j) as [oj |] eqn:Hj.
  - destruct (LFSR.next oj) as [b oj'] eqn:Hn.
    destruct (Nat.eqb_spec j i) as [-> | Hne].
    + assert (oj = o) by congruence. subst oj.
      destruct (IH (<[i := oj']> h) i oj') as [IHb IHs];
        [apply lookup_insert_eq |].
      destruct (LFSR.run rest (<[i := oj']> h)) as [lg h''].
      cbn [fst snd] in *. cbn [LFSR.bits_of LFSR.bits LFSR.after].
      rewrite Nat.eqb_refl, Hn. cbn [snd]. rewrite IHb. split; [reflexivity | exact IHs].
    + destruct (IH (<[j := oj']> h) i o) as [IHb IHs];
        [rewrite lookup_insert_ne by exact Hne; exact Hi |].
      destruct (LFSR.run rest (<[j := oj']> h)) as [lg h''].
      cbn [fst snd] in *. cbn [LFSR.bits_of].
      destruct (Nat.eqb_spec j i); [contradiction |].
      split; assumption.
  - destruct (Nat.eqb_spec j i) as [-> | Hne]; [congruence |].
    destruct (IH h i o Hi) as [IHb IHs].
    destruct (LFSR.run rest h) as [lg h''].
    cbn [fst snd] in *. split; assumption.
Qed.

End LFSR_runs.

(** C7. For every non-zero 16-bit state the state after [next()] is
    non-zero; hence an LFSR constructed with a non-zero seed never has
    state 0, after any number of [next()] calls. *)
Theorem C7_state_never_zero (s : Z) (Hs : 0 < s < 65536) :
  LFSR.reg (snd (LFSR.next (LFSR.mk s))) <> 0
  /\ forall n : nat, LFSR.reg (LFSR.after n (LFSR.new s)) <> 0.
Proof.
  split; [apply next_nonzero; exact Hs |].
  intros n. apply after_nonzero; [apply new_wf |].
  unfold LFSR.new, u16. cbn [LFSR.reg]. rewrite Z.mod_small; lia.
Qed.

Lemma C7_witness :
  LFSR.reg (snd (LFSR.next (LFSR.mk 0xA1E))) <> 0
  /\ forall n : nat, LFSR.reg (LFSR.after n lsfr1) <> 0.
Proof. apply (C7_state_never_zero 0xA1E). lia. Defined.

(** C9. [next()] is deterministic and instances do not interfere: when
    two LFSR objects are constructed with the same seed and a program
    calls [next()] on each the same number of times, in any interleaving
    and among calls on other instances, both return the same bit sequence
    and end in the same state. *)
Theorem C9_same_seed_same_bits
    (seed : Z) (sched : list nat) (h : gmap nat LFSR.t) (a b : nat)
    (Ha : h !! a = Some (LFSR.new seed))
    (Hb : h !! b = Some (LFSR.new seed))
    (Hn : LFSR.calls_of a sched = LFSR.calls_of b sched) :
  LFSR.bits_of a (fst (LFSR.run sched h)) = LFSR.bits_of b (fst (LFSR.run sched h))
  /\ snd (LFSR.run sched h) !! a = snd (LFSR.run sched h) !! b.
Proof.
  destruct (run_instance sched h a _ Ha) as [Hba Hsa].
  destruct (run_instance sched h b _ Hb) as [Hbb Hsb].
  rewrite Hba, Hbb, Hsa, Hsb, Hn. split; reflexivity.
Qed.

Lemma C9_witness :
  let h : gmap nat LFSR.t := <[1%nat := LFSR.new 0xA1E]> {[ 0%nat := LFSR.new 0xA1E ]} in
  let sched := [0; 1; 1; 0; 0; 1]%nat in
  LFSR.bits_of 0 (fst (LFSR.run sched h)) = LFSR.bits_of 1 (fst (LFSR.run sched h))
  /\ snd (LFSR.run sched h) !! 0%nat = snd (LFSR.run sched h) !! 1%nat.
Proof.
  cbv zeta.
  apply (C9_same_seed_same_bits 0xA1E); reflexivity.
Defined.

(** * Properties of the wave generators *)

Section Wave_facts.

Lemma exec_seq {A B} (c : M A) (k : M B) (m : Machine) :
  exec (c ;; k) m = exec k (exec c m).
Proof. unfold exec, mbind, M_bind. destruct (c m). reflexivity. Qed.

Lemma exec_read (r : reg8) {B} (k : Z -> M B) (m : Machine) :
  exec (v ← read r; k v) m = exec (k (regs m r)) m.
Proof. reflexivity. Qed.

Lemma u8_range (z : Z) : 0 <= u8 z < 256.
Proof. unfold u8. apply Z.mod_pos_bound. lia. Qed.

(** The whole effect of one [tick()]. *)
Lemma tick_effect (w : WaveT) (m : Machine) :
  exec (Wave.tick w) m =
    let c' := next_counter w (Wave.counter w m) in
    {| regs := regs m; sreg_i := sreg_i m;
       statics := <[ wave_key w := c' ]> (statics m);
       ddr := ddr m;
       port := <[ pin w := output_of w c' ]> (port m);
       noise := noise m;
       trace := trace m ++
                [if output_of w c' then EvSetHigh (pin w)
                 else EvSetLow (pin w)] |}.
Proof.
  unfold Wave.tick, exec, mbind, M_bind, Wave.get_counter, next_counter,
    output_of. cbv zeta.
  destruct (Wave.counter w m <=? Wave.period_ticks w);
    unfold Wave.set_counter, Wave.counter; cbn [statics];
    rewrite lookup_insert_eq; cbn [default]; unfold id;
    match goal with
    | |- context [?c <=? Wave.half_period_ticks w] =>
        destruct (c <=? Wave.half_period_ticks w)
    end; reflexivity.
Qed.

Lemma tick_counter (w : WaveT) (m : Machine) :
  Wave.counter w (exec (Wave.tick w) m) = next_counter w (Wave.counter w m).
Proof.
  rewrite tick_effect. unfold Wave.counter at 1. cbn [statics].
  rewrite lookup_insert_eq. reflexivity.
Qed.

Lemma tick_level (w : WaveT) (m : Machine) :
  level (pin w) (exec (Wave.tick w) m) =
    output_of w (Wave.counter w (exec (Wave.tick w) m)).
Proof.
  rewrite tick_counter, tick_effect. unfold level. cbn [port].
  rewrite lookup_insert_eq. reflexivity.
Qed.

Lemma tick_counter_other (w w' : WaveT) (m : Machine) :
  wave_key w' <> wave_key w ->
  Wave.counter w' (exec (Wave.tick w) m) = Wave.counter w' m.
Proof.
  intros Hne. rewrite tick_effect. unfold Wave.counter. cbn [statics].
  rewrite lookup_insert_ne by congruence. reflexivity.
Qed.

Lemma tick_level_other (w : WaveT) (n : Z) (m : Machine) :
  n <> pin w -> level n (exec (Wave.tick w) m) = level n m.
Proof.
  intros Hne. rewrite tick_effect. unfold level. cbn [port].
  rewrite lookup_insert_ne by congruence. reflexivity.
Qed.

End Wave_facts.

(** C5. Every call of [tick()] does two things, in this order: if
    [counter <= period_ticks] the counter is incremented in [uint8_t] (by
    exactly one, except that 255 becomes 0, which needs
    [period_ticks = 255]), else it is reset to 0; then the pin
    is driven HIGH if the updated counter is [<= half_period_ticks], else
    LOW.  Nothing else changes: one pin operation is appended to what
    the program did, every other wave's counter, every other pin, the
    timer registers, the pin directions, the interrupt flag and the noise
    register keep their values. *)
Theorem C5_tick_two_steps (w : WaveT) (m : Machine) :
  let c := Wave.counter w m in
  let m' := exec (Wave.tick w) m in
  let c' := Wave.counter w m' in
  c' = (if c <=? Wave.period_ticks w then (c + 1) mod 256 else 0)
  /\ (c <= Wave.period_ticks w -> 0 <= c < 255 -> c' = c + 1)
  /\ level (pin w) m' = (c' <=? Wave.half_period_ticks w)
  /\ trace m' = trace m ++ [if c' <=? Wave.half_period_ticks w
                            then EvSetHigh (pin w) else EvSetLow (pin w)]
  /\ (forall w', wave_key w' <> wave_key w ->
                 Wave.counter w' m' = Wave.counter w' m)
  /\ (forall n, n <> pin w -> level n m' = level n m)
  /\ regs m' = regs m /\ ddr m' = ddr m /\ sreg_i m' = sreg_i m
  /\ noise m' = noise m
  /\ (c = 255 -> c <= Wave.period_ticks w ->
      c' = 0 /\ Wave.period_ticks w = 255).
Proof.
  cbv zeta.
  assert (Hc : Wave.counter w (exec (Wave.tick w) m) =
               if Wave.counter w m <=? Wave.period_ticks w
               then (Wave.counter w m + 1) mod 256 else 0).
  { rewrite tick_counter. unfold next_counter, u8.
    destruct (Wave.counter w m <=? Wave.period_ticks w); reflexivity. }
  split; [exact Hc |].
  split.
  { intros Hle Hr. apply Z.leb_le in Hle. rewrite Hc, Hle.
    apply Z.mod_small. lia. }
  split; [apply tick_level |].
  split.
  { rewrite tick_counter. rewrite tick_effect. reflexivity. }
  split; [intros w' Hne; apply tick_counter_other; exact Hne |].
  split; [intros n Hne; apply tick_level_other; exact Hne |].
  assert (Hframe : regs (exec (Wave.tick w) m) = regs m
                   /\ ddr (exec (Wave.tick w) m) = ddr m
                   /\ sreg_i (exec (Wave.tick w) m) = sreg_i m
                   /\ noise (exec (Wave.tick w) m) = noise m)
    by (rewrite tick_effect; repeat split).
  destruct Hframe as (Hf1 & Hf2 & Hf3 & Hf4).
  split; [exact Hf1 |]. split; [exact Hf2 |]. split; [exact Hf3 |].
  split; [exact Hf4 |].
  intros H255 Hle. pose proof (u8_range ((1000000 / frequency w) / tick_period_us w)) as Hr.
  fold (Wave.period_ticks w) in Hr.
  rewrite Hc. apply Z.leb_le in Hle. rewrite Hle, H255.
  split; [reflexivity | apply Z.leb_le in Hle; lia].
Qed.

(** C5 fails as stated for a wave with [period_ticks = 255]: with the
    counter at 255 the comparison [counter <= period_ticks] holds, yet the
    call leaves the counter at 0, not at 256, and drives the pin HIGH. *)
Lemma C5_counterexample :
  let m := ticks 255 wave_wrap reset in
  let m' := exec (Wave.tick wave_wrap) m in
  Wave.counter wave_wrap m = 255
  /\ Wave.counter wave_wrap m <= Wave.period_ticks wave_wrap
  /\ Wave.counter wave_wrap m' <> Wave.counter wave_wrap m + 1
  /\ level (pin wave_wrap) m' = true
  /\ (Wave.counter wave_wrap m + 1 <=? Wave.half_period_ticks wave_wrap)
     = false.
Proof.
  cbv zeta.
  split; [vm_compute; reflexivity |].
  split; [vm_compute; discriminate |].
  split; [vm_compute; discriminate |].
  split; vm_compute; reflexivity.
Qed.

Lemma C5_witness :
  let m' := exec (Wave.tick wave0) reset in
  Wave.counter wave0 m' = 1
  /\ level (pin wave0) m' = true
  /\ Wave.counter wave1 m' = 0
  /\ level (pin wave1) m' = false.
Proof.
  cbv zeta.
  destruct (C5_tick_two_steps wave0 reset)
    as (_ & Hinc & Hlvl & _ & Hothers & Hpins & _).
  cbv zeta in Hinc, Hlvl, Hothers, Hpins.
  assert (Hc : Wave.counter wave0 (exec (Wave.tick wave0) reset) = 1).
  { apply Hinc; vm_compute; [discriminate | split; [discriminate | reflexivity]]. }
  split; [exact Hc |].
  split; [rewrite Hlvl, Hc; reflexivity |].
  split.
  - rewrite (Hothers wave1); [reflexivity | discriminate].
  - rewrite (Hpins (pin wave1)); [reflexivity | discriminate].
Defined.

Section Wave_cycle.

Variable w : WaveT.

Lemma period_ticks_range : 0 <= Wave.period_ticks w < 256.
Proof. apply u8_range. Qed.

Lemma half_period_ticks_eq : Wave.half_period_ticks w = Wave.period_ticks w / 2.
Proof.
  unfold Wave.half_period_ticks, u8. pose proof period_ticks_range as Hp.
  apply Z.mod_small. split; [apply Z.div_pos; lia |].
  apply Z.div_lt_upper_bound; lia.
Qed.

Lemma cycle_ticks_range : 2 <= cycle_ticks w <= 256.
Proof. unfold cycle_ticks. pose proof period_ticks_range. lia. Qed.

Lemma ticks_S (n : nat) (m : Machine) :
  ticks (S n) w m = exec (Wave.tick w) (ticks n w m).
Proof. reflexivity. Qed.

Lemma counter_after_0 : counter_after w 0 = 0.
Proof.
  unfold counter_after, ticks, Wave.counter. cbn [Nat.iter nat_rect reset statics].
  rewrite lookup_empty. reflexivity.
Qed.

Lemma counter_after_S (n : nat) :
  counter_after w (S n) = next_counter w (counter_after w n).
Proof. unfold counter_after. rewrite ticks_S. apply tick_counter. Qed.

(** The counter after [n] calls is [n] modulo the length of the cycle. *)
Lemma counter_after_mod (n : nat) :
  counter_after w n = Z.of_nat n mod cycle_ticks w.
Proof.
  pose proof period_ticks_range as Hr. pose proof cycle_ticks_range as HP.
  induction n as [| n IH].
  - rewrite counter_after_0. reflexivity.
  - rewrite counter_after_S, IH. unfold next_counter, u8.
    pose proof (Z.mod_pos_bound (Z.of_nat n) (cycle_ticks w) ltac:(lia)) as Hc.
    pose proof (Z.div_mod (Z.of_nat n) (cycle_ticks w) ltac:(lia)) as Hdm.
    set (c := Z.of_nat n mod cycle_ticks w) in *.
    set (q := Z.of_nat n / cycle_ticks w) in *.
    assert (HPdef : cycle_ticks w = Z.min (Wave.period_ticks w + 2) 256)
      by reflexivity.
    destruct (Z.leb_spec c (Wave.period_ticks w)) as [Hle | Hgt].
    + destruct (Z.eq_dec (c + 1) (cycle_ticks w)) as [Hwrap | Hstep].
      * assert (c + 1 = 256) as -> by lia. change (256 mod 256) with 0.
        apply (Z.mod_unique _ _ (q + 1)); lia.
      * rewrite Z.mod_small by lia.
        apply (Z.mod_unique _ _ q); lia.
    + change (0 mod 256) with 0.
      apply (Z.mod_unique _ _ (q + 1)); lia.
Qed.

Lemma counter_after_exact_period :
  exact_period (counter_after w) (Z.to_nat (cycle_ticks w)).
Proof.
  pose proof cycle_ticks_range as HP.
  split; [lia |]. split.
  - intros n. rewrite !counter_after_mod.
    rewrite Nat2Z.inj_add, Z2Nat.id by lia.
    rewrite <- (Z.mul_1_l (cycle_ticks w)) at 1.
    apply Z.mod_add. lia.
  - intros k Hk. exists O. rewrite Nat.add_0_l, counter_after_0.
    rewrite counter_after_mod.
    rewrite Z.mod_small by lia. lia.
Qed.

Lemma highs_app (l l' : list bool) : highs (l ++ l') = (highs l + highs l')%nat.
Proof.
  induction l as [| x l IH]; [reflexivity |].
  cbn [app highs]. rewrite IH. lia.
Qed.

(** A window as long as the period of a periodic signal holds as many
    HIGH samples wherever it starts. *)
Lemma highs_window_shift (g : nat -> bool) (P : nat) :
  (forall k, g (k + P)%nat = g k) ->
  forall a, highs (map g (seq a P)) = highs (map g (seq 0 P)).
Proof.
  intros Hg a. induction a as [| a IH]; [reflexivity |].
  rewrite <- IH. destruct P as [| P']; [reflexivity |].
  rewrite (seq_S P' (S a)), map_app, highs_app.
  cbn [seq map highs].
  replace (S a + P')%nat with (a + S P')%nat by lia.
  rewrite Hg. lia.
Qed.

Lemma highs_below (n : nat) (b : Z) :
  0 <= b ->
  highs (map (fun k : nat => Z.of_nat k <=? b) (seq 0 n)) =
    Nat.min n (Z.to_nat (b + 1)).
Proof.
  intros Hb. induction n as [| n IH]; [reflexivity |].
  rewrite seq_S, map_app, highs_app, IH. cbn [map highs Nat.add].
  destruct (Z.leb_spec (Z.of_nat n) b); lia.
Qed.

Lemma outputs_ticks (n : nat) :
  forall a,
    outputs n w (ticks a w reset) =
      map (fun k : nat => output_of w (Z.of_nat k mod cycle_ticks w))
          (seq (S a) n).
Proof.
  induction n as [| n IH]; intros a; [reflexivity |].
  cbn [outputs seq map]. rewrite <- ticks_S. f_equal.
  - rewrite ticks_S, tick_level, <- ticks_S.
    fold (counter_after w (S a)). rewrite counter_after_mod.
    reflexivity.
  - apply IH.
Qed.

Lemma outputs_levels_from (n : nat) :
  forall m, outputs n w m = levels_from n w (Wave.counter w m).
Proof.
  induction n as [| n IH]; intros m; [reflexivity |].
  cbn [outputs levels_from]. rewrite tick_level, IH, tick_counter.
  reflexivity.
Qed.

Lemma highs_per_cycle (a : nat) :
  highs (outputs (Z.to_nat (cycle_ticks w)) w (ticks a w reset)) =
    Z.to_nat (Wave.half_period_ticks w + 1).
Proof.
  pose proof period_ticks_range as Hr. pose proof cycle_ticks_range as HP.
  pose proof half_period_ticks_eq as Hh.
  assert (HPdef : cycle_ticks w = Z.min (Wave.period_ticks w + 2) 256)
    by reflexivity.
  assert (Hh' : 0 <= Wave.half_period_ticks w < cycle_ticks w).
  { rewrite Hh. split; [apply Z.div_pos; lia |].
    apply Z.div_lt_upper_bound; lia. }
  rewrite outputs_ticks.
  rewrite highs_window_shift.
  - rewrite (map_ext_in _ (fun k : nat => Z.of_nat k <=? Wave.half_period_ticks w)).
    + rewrite highs_below by lia. lia.
    + intros k Hk. apply in_seq in Hk. unfold output_of.
      rewrite Z.mod_small by lia. reflexivity.
  - intros k. rewrite Nat2Z.inj_add, Z2Nat.id by lia.
    rewrite <- (Z.mul_1_l (cycle_ticks w)) at 1.
    rewrite Z.mod_add by lia. reflexivity.
Qed.

End Wave_cycle.

(** C10, with the width of the counter taken into account. Starting from counter 0, the counter under repeated
    [tick()] is [n] modulo the cycle length and has exactly that period:
    [period_ticks + 2] when [period_ticks <= 254] (the counter runs
    through 1, 2, ..., [period_ticks + 1], 0), and 256 when
    [period_ticks = 255] (the 8-bit increment wraps 255 to 0).  Every
    window of one cycle holds exactly [half_period_ticks + 1] calls that
    drive the pin HIGH. *)
Theorem C10_counter_cycle (w : WaveT) :
  let p := Wave.period_ticks w in
  let P := if p <=? 254 then p + 2 else 256 in
  exact_period (counter_after w) (Z.to_nat P)
  /\ (forall n, counter_after w n = Z.of_nat n mod P)
  /\ (forall a, highs (outputs (Z.to_nat P) w (ticks a w reset)) =
                Z.to_nat (Wave.half_period_ticks w + 1)).
Proof.
  cbv zeta.
  assert (HP : (if Wave.period_ticks w <=? 254
                then Wave.period_ticks w + 2 else 256) = cycle_ticks w).
  { unfold cycle_ticks. pose proof (period_ticks_range w).
    destruct (Z.leb_spec (Wave.period_ticks w) 254); lia. }
  rewrite HP. split; [apply counter_after_exact_period |].
  split; [intros n; apply counter_after_mod | intros a; apply highs_per_cycle].
Qed.

(** C10 fails as stated for a wave with [period_ticks = 255]: its counter
    repeats after 256 calls, not after 257. *)
Lemma C10_counterexample :
  ~ exact_period (counter_after wave255)
                 (Z.to_nat (Wave.period_ticks wave255 + 2)).
Proof.
  intros (_ & Hper & _). specialize (Hper O).
  rewrite !counter_after_mod in Hper. vm_compute in Hper. discriminate.
Qed.

(** C1. The bound [counter <= period_ticks] is broken by [tick()]: for the
    first configured wave ([period_ticks = 38]) the counter is 39 after
    39 calls from the initial state. *)
Theorem C1_counter_exceeds_period_ticks :
  Wave.period_ticks wave0 = 38
  /\ counter_after wave0 39 = 39
  /\ ~ (forall n, 0 <= counter_after wave0 n <= Wave.period_ticks wave0).
Proof.
  assert (H39 : counter_after wave0 39 = 39)
    by (rewrite counter_after_mod; reflexivity).
  split; [reflexivity |]. split; [exact H39 |].
  intros Hall. specialize (Hall 39%nat). rewrite H39 in Hall.
  change (Wave.period_ticks wave0) with 38 in Hall. lia.
Qed.

(** C2. The first configured wave has [period_ticks = 38], which is also
    the rounded period of the specification, yet its output does not
    toggle once each way per 38 calls: the 38 calls after [begin()]'s
    first one see one fall and no rise, and 10000 calls see 250 falls and
    250 rises, where [10000 / 38 = 263]. *)
Theorem C2_wave0_toggles_every_40_ticks :
  Wave.period_ticks wave0 = 38
  /\ spec_period_ticks (tick_period_us wave0) (frequency wave0) = 38
  /\ falls (output_after wave0 1) (outputs 38 wave0 (ticks 1 wave0 reset)) = 1%nat
  /\ rises (output_after wave0 1) (outputs 38 wave0 (ticks 1 wave0 reset)) = 0%nat
  /\ falls (output_after wave0 1)
           (outputs (Z.to_nat 10000) wave0 (ticks 1 wave0 reset)) = 250%nat
  /\ rises (output_after wave0 1)
           (outputs (Z.to_nat 10000) wave0 (ticks 1 wave0 reset)) = 250%nat
  /\ 10000 / Wave.period_ticks wave0 = 263.
Proof.
  rewrite !outputs_levels_from.
  split; [vm_compute; reflexivity |].
  split; [vm_compute; reflexivity |].
  split; [vm_compute; reflexivity |].
  split; [vm_compute; reflexivity |].
  split; [vm_compute; reflexivity |].
  split; [vm_compute; reflexivity |].
  vm_compute; reflexivity.
Qed.

(** * The derived constants *)

Section Period_facts.

Lemma spec_ratio (t f : positive) :
  (1 / (inject_Z (Zpos f) * (inject_Z (Zpos t) / inject_Z 1000000))
   == 1000000 # (f * t))%Q.
Proof.
  unfold Qeq, Qdiv, Qmult, Qinv, inject_Z. cbn [Qnum Qden].
  rewrite Z.mul_1_r. change (Z.pos f * Z.pos t) with (Z.pos (f * t)).
  cbn [Qnum Qden]. lia.
Qed.

(** Rounding to nearest gives the integer part or the integer after. *)
Lemma round_sandwich (q : Q) : Qfloor q <= round_nearest q <= Qfloor q + 1.
Proof.
  unfold round_nearest. split.
  - apply Qfloor_resp_le. rewrite <- (Qplus_0_r q) at 1.
    apply Qplus_le_r. discriminate.
  - assert (H1 : (inject_Z (Qfloor (q + (1 # 2))) <= q + (1 # 2))%Q)
      by apply Qfloor_le.
    assert (H2 : (q < inject_Z (Qfloor q + 1))%Q) by apply Qlt_floor.
    assert (H3 : (inject_Z (Qfloor (q + (1 # 2)))
                  < inject_Z (Qfloor q + 1 + 1))%Q).
    { eapply Qle_lt_trans; [exact H1 |].
      rewrite (inject_Z_plus (Qfloor q + 1) 1).
      apply Qplus_lt_le_compat; [exact H2 | discriminate]. }
    rewrite <- Zlt_Qlt in H3. lia.
Qed.

Lemma spec_period_ticks_sandwich (t f : Z) :
  0 < t -> 0 < f ->
  1000000 / (f * t) <= spec_period_ticks t f <= 1000000 / (f * t) + 1.
Proof.
  intros Ht Hf. destruct t as [| t | t]; try lia. destruct f as [| f | f]; try lia.
  unfold spec_period_ticks.
  pose proof (round_sandwich
                (1 / (inject_Z (Z.pos f) *
                      (inject_Z (Z.pos t) / inject_Z 1000000)))%Q) as Hr.
  rewrite (Qfloor_comp _ _ (spec_ratio t f)) in Hr.
  exact Hr.
Qed.

End Period_facts.

(** C3, with the division the code performs. [period_ticks] is the
    integer part of [1 / (frequency * tickPeriod)], obtained by two
    truncating divisions, reduced modulo 256 by the 8-bit constant that
    holds it.  While that integer part is below 256 the constant holds it
    unchanged and is the rounded value or one less, not always the rounded
    value.  [half_period_ticks] is [period_ticks / 2].  For a tick of 25
    microseconds and 1049, 717, 261 and 392 Hz the periods are 38, 55,
    153 and 102, each within one of 38, 56, 153, 102. *)
Theorem C3_period_ticks_truncates (w : WaveT) (Hwf : Wave.wf w) :
  let x := 1000000 / (frequency w * tick_period_us w) in
  let r := spec_period_ticks (tick_period_us w) (frequency w) in
  Wave.period_ticks w = x mod 256
  /\ x * (frequency w * tick_period_us w) <= 1000000
     < (x + 1) * (frequency w * tick_period_us w)
  /\ r - 1 <= x <= r
  /\ Wave.half_period_ticks w = Wave.period_ticks w / 2
  /\ map Wave.period_ticks [wave0; wave1; wave2; wave3] = [38; 55; 153; 102]
  /\ Forall2 (fun a b => Z.abs (a - b) <= 1)
             (map Wave.period_ticks [wave0; wave1; wave2; wave3])
             [38; 56; 153; 102]
  /\ (x < 256 ->
      Wave.period_ticks w = x /\ r - 1 <= Wave.period_ticks w <= r).
Proof.
  destruct Hwf as [Ht Hf]. cbv zeta.
  assert (Hft : 0 < frequency w * tick_period_us w) by lia.
  assert (Hp : Wave.period_ticks w =
               1000000 / (frequency w * tick_period_us w) mod 256).
  { unfold Wave.period_ticks, u8. rewrite Z.div_div by lia. reflexivity. }
  assert (Hr : spec_period_ticks (tick_period_us w) (frequency w) - 1
               <= 1000000 / (frequency w * tick_period_us w)
               <= spec_period_ticks (tick_period_us w) (frequency w)).
  { pose proof (spec_period_ticks_sandwich (tick_period_us w) (frequency w)
                  ltac:(lia) ltac:(lia)).
    lia. }
  split; [exact Hp |].
  split.
  { pose proof (Z.div_mod 1000000 (frequency w * tick_period_us w) ltac:(lia)).
    pose proof (Z.mod_pos_bound 1000000 (frequency w * tick_period_us w) Hft).
    lia. }
  split; [exact Hr |].
  split; [apply half_period_ticks_eq |].
  split; [reflexivity |].
  split; [repeat constructor; vm_compute; discriminate |].
  intros Hx.
  assert (Hx0 : 0 <= 1000000 / (frequency w * tick_period_us w))
    by (apply Z.div_pos; lia).
  rewrite Hp, Z.mod_small by lia. split; [reflexivity | exact Hr].
Qed.

Lemma C3_witness :
  Wave.period_ticks wave1 = 55
  /\ spec_period_ticks (tick_period_us wave1) (frequency wave1) - 1 <= 55
  /\ Wave.half_period_ticks wave1 = 27
  /\ spec_period_ticks (tick_period_us wave1) (frequency wave1) - 1
     <= Wave.period_ticks wave1
     <= spec_period_ticks (tick_period_us wave1) (frequency wave1).
Proof.
  assert (Hwf : Wave.wf wave1)
    by (unfold Wave.wf, wave1, timer_period_us; simpl; lia).
  pose proof (C3_period_ticks_truncates wave1 Hwf) as H. cbv zeta in H.
  destruct H as (H1 & _ & H3 & H4 & _ & _ & H7).
  split; [exact H1 |]. split; [exact (proj1 H3) |]. split; [exact H4 |].
  apply H7. vm_compute. reflexivity.
Defined.

(** C3 fails as stated: at 717 Hz and 25 microseconds the code computes
    55 where rounding gives 56, and at 100 Hz it stores 144 where
    rounding gives 400, which is not within one either. *)
Lemma C3_counterexample :
  Wave.period_ticks wave1 <>
    spec_period_ticks (tick_period_us wave1) (frequency wave1)
  /\ 1 < Z.abs (Wave.period_ticks wave_slow -
                spec_period_ticks (tick_period_us wave_slow)
                                  (frequency wave_slow)).
Proof. split; vm_compute; [discriminate | reflexivity]. Qed.

(** * Properties of the timer *)

Section Timer_facts.

Lemma Handler_begin_regs (h : Handler) (m : Machine) :
  regs (exec (Handler_begin h) m) = regs m.
Proof.
  destruct h as [| w]; [reflexivity |].
  cbn [Handler_begin]. unfold Wave.begin. rewrite exec_seq, tick_effect.
  reflexivity.
Qed.

Lemma Handler_begin_sreg_i (h : Handler) (m : Machine) :
  sreg_i (exec (Handler_begin h) m) = sreg_i m.
Proof.
  destruct h as [| w]; [reflexivity |].
  cbn [Handler_begin]. unfold Wave.begin. rewrite exec_seq, tick_effect.
  reflexivity.
Qed.

(** The registers [Timer::begin()] leaves behind: CTC mode, compare-match
    A interrupt enabled, the compare value, the clock at CLK/8. *)
Lemma Timer_begin_regs (T : TimerT) (m : Machine) :
  let m' := exec (Timer.begin T) m in
  regs m' TCCR0A = 2 /\ regs m' TCCR0B = 2 /\ regs m' TIMSK = 16
  /\ regs m' OCR0A = u8 (period_us T) /\ sreg_i m' = sreg_i m.
Proof.
  cbv zeta. unfold Timer.begin.
  repeat (rewrite exec_seq || rewrite exec_read).
  rewrite !Handler_begin_regs, !Handler_begin_sreg_i.
  repeat split.
Qed.

End Timer_facts.

(** C4, for the start-up the code has. Start-up checks nothing about the periods: for every
    timer configuration, one with a wave of [period_ticks < 2] included,
    [setup()] followed by [sei()] runs to its end and leaves the timer
    counting with its compare-match interrupt enabled. *)
Theorem C4_startup_checks_nothing (T : TimerT) (m : Machine) :
  let m' := exec (main_init T) m in
  timer_running m' = true
  /\ sreg_i m' = true
  /\ regs m' TIMSK = _BV OCIE0A
  /\ regs m' OCR0A = u8 (period_us T).
Proof.
  cbv zeta. unfold main_init, setup_with. rewrite !exec_seq.
  destruct (Timer_begin_regs T (exec (FastPin.setOutput NoisePin) m))
    as (Ha & Hb & Hk & Hc & Hi).
  cbv zeta in Ha, Hb, Hk, Hc, Hi.
  set (m1 := exec (Timer.begin T) (exec (FastPin.setOutput NoisePin) m)) in *.
  unfold timer_running.
  change (regs (exec sei m1)) with (regs m1).
  change (sreg_i (exec sei m1)) with true.
  rewrite Hb, Hk, Hc. repeat split.
Qed.

(** C4 fails as stated: a timer whose only wave has [period_ticks = 1]
    starts like any other. *)
Lemma C4_counterexample : ~ rejects_degenerate timer_fast.
Proof.
  intros Hrej.
  assert (Hdeg : degenerate timer_fast).
  { exists wave_fast. split; [apply list_elem_of_In; left; reflexivity |].
    vm_compute. reflexivity. }
  specialize (Hrej Hdeg). vm_compute in Hrej. discriminate.
Qed.

Section Fire_facts.

Lemma handleCOMPA_tick_all (T : TimerT) (m : Machine) :
  exec (Timer.handleCOMPA T) m =
    exec (write TIFR (Z.lor (regs (tick_all (handlers T) m) TIFR) (_BV OCF0A)))
         (tick_all (handlers T) m).
Proof.
  unfold Timer.handleCOMPA. rewrite !exec_seq, exec_read. reflexivity.
Qed.

Lemma Handler_tick_regs (h : Handler) (m : Machine) :
  regs (exec (Handler_tick h) m) = regs m.
Proof.
  destruct h as [| w]; [reflexivity |].
  cbn [Handler_tick]. rewrite tick_effect. reflexivity.
Qed.

Lemma tick_all_regs (hs : list Handler) :
  forall m, regs (tick_all hs m) = regs m.
Proof.
  induction hs as [| h hs IH]; intros m; [reflexivity |].
  cbn [tick_all fold_left]. fold (tick_all hs (exec (Handler_tick h) m)).
  rewrite IH. apply Handler_tick_regs.
Qed.

(** Each wave among the handlers contributes one pin operation, in the
    order of the handlers. *)
Lemma tick_all_trace (hs : list Handler) :
  forall m, exists evs,
    trace (tick_all hs m) = trace m ++ evs
    /\ Forall2 drives evs (waves_of hs).
Proof.
  induction hs as [| h hs IH]; intros m.
  - exists []. split; [symmetry; apply app_nil_r | constructor].
  - cbn [tick_all fold_left]. fold (tick_all hs (exec (Handler_tick h) m)).
    destruct (IH (exec (Handler_tick h) m)) as (evs & Htr & Hdr).
    destruct h as [| w].
    + exists evs. split; [exact Htr | exact Hdr].
    + cbn [Handler_tick] in *.
      assert (Hev : trace (exec (Wave.tick w) m) =
                    trace m ++
                    [if output_of w (next_counter w (Wave.counter w m))
                     then EvSetHigh (pin w) else EvSetLow (pin w)])
        by (rewrite tick_effect; reflexivity).
      eexists (_ :: evs). split.
      * rewrite Htr, Hev, <- app_assoc. reflexivity.
      * cbn [waves_of]. constructor; [| exact Hdr].
        unfold drives. destruct (output_of w _); [left | right]; reflexivity.
Qed.

(** With pairwise different waves, each one's counter advances by exactly
    one [tick()], and the counters of other waves stay. *)
Lemma tick_all_counter (hs : list Handler) :
  forall (m : Machine) (w : WaveT),
    NoDup (map wave_key (waves_of hs)) ->
    (w ∈ waves_of hs ->
     Wave.counter w (tick_all hs m) = next_counter w (Wave.counter w m))
    /\ (wave_key w ∉ map wave_key (waves_of hs) ->
        Wave.counter w (tick_all hs m) = Wave.counter w m).
Proof.
  induction hs as [| h hs IH]; intros m w Hnd.
  - split; [intros Hin; inversion Hin | reflexivity].
  - cbn [tick_all fold_left]. fold (tick_all hs (exec (Handler_tick h) m)).
    destruct h as [| w0].
    + cbn [waves_of] in *. apply IH. exact Hnd.
    + cbn [waves_of map Handler_tick] in *.
      apply NoDup_cons in Hnd as [Hfresh Hnd].
      destruct (IH (exec (Wave.tick w0) m) w Hnd) as [IHin IHout].
      split.
      * intros Hin. apply elem_of_cons in Hin as [-> | Hin].
        -- rewrite IHout by exact Hfresh. apply tick_counter.
        -- rewrite IHin by exact Hin.
           rewrite tick_counter_other; [reflexivity |].
           intros Heq. apply Hfresh. rewrite <- Heq.
           apply list_elem_of_fmap_2. exact Hin.
      * intros Hout. apply not_elem_of_cons in Hout as [Hne Hout].
        rewrite IHout by exact Hout.
        apply tick_counter_other. exact Hne.
Qed.

Lemma tick_all_cons (h : Handler) (hs : list Handler) (m : Machine) :
  tick_all (h :: hs) m = tick_all hs (exec (Handler_tick h) m).
Proof. reflexivity. Qed.

Lemma tick_all_level_other (hs : list Handler) (n : Z) :
  forall m,
    (forall w, w ∈ waves_of hs -> pin w <> n) ->
    level n (tick_all hs m) = level n m.
Proof.
  induction hs as [| h hs IH]; intros m Hpins; [reflexivity |].
  rewrite tick_all_cons. destruct h as [| w0].
  - apply IH. exact Hpins.
  - cbn [waves_of Handler_tick] in *. rewrite IH.
    + apply tick_level_other. intros Heq.
      apply (Hpins w0); [apply elem_of_cons; left; reflexivity | congruence].
    + intros w Hin. apply Hpins. apply elem_of_cons. right. exact Hin.
Qed.

Lemma tick_event_drives (w : WaveT) (c : Z) : drives (tick_event w c) w.
Proof.
  unfold drives, tick_event.
  destruct (c <=? Wave.half_period_ticks w); [left | right]; reflexivity.
Qed.

Lemma same_pin_not_fresh (w0 : WaveT) (ws : list WaveT) :
  pin w0 ∉ map pin ws -> wave_key w0 ∉ map wave_key ws.
Proof.
  intros Hfresh Hin. apply Hfresh.
  apply list_elem_of_fmap in Hin as (w & Hk & Hw).
  apply list_elem_of_fmap. exists w. split; [| exact Hw].
  unfold wave_key in Hk. congruence.
Qed.

Lemma NoDup_pins_keys (ws : list WaveT) :
  NoDup (map pin ws) -> NoDup (map wave_key ws).
Proof.
  induction ws as [| w0 ws IH]; intros Hnd; [constructor |].
  cbn [map] in *. apply NoDup_cons in Hnd as [Hfresh Hnd].
  apply NoDup_cons. split; [apply same_pin_not_fresh; exact Hfresh | apply IH; exact Hnd].
Qed.

(** With pairwise different waves, what a fire does to the pins is, wave
    by wave, the level [tick()] derives from the counter it has stored. *)
Lemma tick_all_trace_exact (hs : list Handler) :
  forall m : Machine,
    NoDup (map wave_key (waves_of hs)) ->
    trace (tick_all hs m) =
      trace m ++
      map (fun w => tick_event w (Wave.counter w (tick_all hs m)))
          (waves_of hs).
Proof.
  induction hs as [| h hs IH]; intros m Hnd.
  - cbn [tick_all fold_left waves_of map]. rewrite app_nil_r. reflexivity.
  - rewrite tick_all_cons. destruct h as [| w0].
    + cbn [waves_of Handler_tick] in *. apply IH. exact Hnd.
    + cbn [waves_of map Handler_tick] in *.
      apply NoDup_cons in Hnd as [Hfresh Hnd].
      rewrite (IH (exec (Wave.tick w0) m) Hnd).
      destruct (tick_all_counter hs (exec (Wave.tick w0) m) w0 Hnd)
        as [_ Hkeep].
      rewrite (Hkeep Hfresh).
      assert (Hev : trace (exec (Wave.tick w0) m) =
                    trace m ++
                    [tick_event w0 (Wave.counter w0 (exec (Wave.tick w0) m))]).
      { rewrite tick_counter, tick_effect. reflexivity. }
      rewrite Hev, <- app_assoc. reflexivity.
Qed.

(** With pairwise different pins, a fire leaves on each wave's pin the
    level [tick()] derives from the counter it has stored. *)
Lemma tick_all_level (hs : list Handler) :
  forall m : Machine,
    NoDup (map pin (waves_of hs)) ->
    forall w, w ∈ waves_of hs ->
      level (pin w) (tick_all hs m) =
        output_of w (Wave.counter w (tick_all hs m)).
Proof.
  induction hs as [| h hs IH]; intros m Hnd w Hin.
  - inversion Hin.
  - rewrite tick_all_cons. destruct h as [| w0].
    + cbn [waves_of Handler_tick] in *. apply IH; assumption.
    + cbn [waves_of map Handler_tick] in *.
      apply NoDup_cons in Hnd as [Hfresh Hnd].
      apply elem_of_cons in Hin as [-> | Hin]; [| apply IH; assumption].
      rewrite tick_all_level_other.
      * destruct (tick_all_counter hs (exec (Wave.tick w0) m) w0
                    (NoDup_pins_keys _ Hnd)) as [_ Hkeep].
        rewrite (Hkeep (same_pin_not_fresh _ _ Hfresh)).
        apply tick_level.
      * intros w Hw Heq. apply Hfresh. rewrite <- Heq.
        apply list_elem_of_fmap_2. exact Hw.
Qed.

End Fire_facts.

(** C8. One fire of the compare-match handler calls [tick()] once on each
    wave among its handlers, first handler to fourth, whatever the state,
    and only then writes [TIFR] to clear the pending compare-match flag:
    what the fire does is one pin operation per wave, in handler order,
    followed by the store to [TIFR]; afterwards [OCF0A] is clear.  When
    the waves are pairwise different, each counter has advanced by exactly
    one [tick()], and each pin operation is the one [tick()] performs:
    HIGH when the wave's new counter is [<= half_period_ticks], LOW
    otherwise.  When the pins are pairwise different, that level is the
    one left on the wave's pin. *)
Theorem C8_fire_ticks_each_then_acknowledges (T : TimerT) (m : Machine) :
  let m' := exec (Timer.handleCOMPA T) m in
  (exists evs,
      trace m' = trace m ++ evs ++
                 [EvWrite TIFR (u8 (Z.lor (regs m TIFR) (_BV OCF0A)))]
      /\ Forall2 drives evs (waves_of (handlers T)))
  /\ Z.testbit (regs m' TIFR) OCF0A = false
  /\ (NoDup (map wave_key (waves_of (handlers T))) ->
      forall w, w ∈ waves_of (handlers T) ->
                Wave.counter w m' = Wave.counter w (exec (Wave.tick w) m))
  /\ (NoDup (map wave_key (waves_of (handlers T))) ->
      trace m' =
        trace m ++
        map (fun w => if Wave.counter w m' <=? Wave.half_period_ticks w
                      then EvSetHigh (pin w) else EvSetLow (pin w))
            (waves_of (handlers T)) ++
        [EvWrite TIFR (u8 (Z.lor (regs m TIFR) (_BV OCF0A)))])
  /\ (NoDup (map pin (waves_of (handlers T))) ->
      forall w, w ∈ waves_of (handlers T) ->
                level (pin w) m' =
                  (Wave.counter w m' <=? Wave.half_period_ticks w)).
Proof.
  cbv zeta. rewrite handleCOMPA_tick_all.
  set (m1 := tick_all (handlers T) m).
  assert (Hregs : regs m1 = regs m) by apply tick_all_regs.
  split; [| split; [| split; [| split]]].
  - destruct (tick_all_trace (handlers T) m) as (evs & Htr & Hdr).
    exists evs. split; [| exact Hdr].
    unfold exec, write. cbn [snd trace]. rewrite Hregs. unfold m1.
    rewrite Htr, <- app_assoc. reflexivity.
  - unfold exec, write. cbn [snd regs reg8_eqb store].
    rewrite Z.land_spec, Z.lnot_spec by (unfold OCF0A; lia).
    unfold u8. change 256 with (2 ^ 8).
    rewrite Z.mod_pow2_bits_low by (unfold OCF0A; lia).
    rewrite Z.lor_spec.
    replace (Z.testbit (_BV OCF0A) OCF0A) with true by reflexivity.
    rewrite orb_true_r. apply andb_false_r.
  - intros Hnd w Hin.
    change (Wave.counter w (exec (write TIFR _) m1)) with (Wave.counter w m1).
    rewrite tick_counter. apply tick_all_counter; assumption.
  - intros Hnd.
    unfold exec at 1, write. cbn [snd trace]. rewrite Hregs. unfold m1.
    rewrite (tick_all_trace_exact (handlers T) m Hnd), <- app_assoc.
    reflexivity.
  - intros Hnd w Hin.
    change (level (pin w) (exec (write TIFR _) m1)) with (level (pin w) m1).
    change (Wave.counter w (exec (write TIFR _) m1)) with (Wave.counter w m1).
    apply tick_all_level; assumption.
Qed.

Lemma C8_witness :
  let m' := exec ISR_TIM0_COMPA reset in
  Wave.counter wave0 m' = 1 /\ Wave.counter wave3 m' = 1
  /\ level (pin wave0) m' = true
  /\ trace m' = [EvSetHigh 0; EvSetHigh 1; EvSetHigh 2; EvSetHigh 3;
                 EvWrite TIFR 16].
Proof.
  cbv zeta. unfold ISR_TIM0_COMPA.
  destruct (C8_fire_ticks_each_then_acknowledges timer reset)
    as (_ & _ & H & Htr & Hlv).
  cbv zeta in H, Htr, Hlv.
  assert (Hnd : NoDup (map wave_key (waves_of (handlers timer)))).
  { compute_done. }
  assert (Hpins : NoDup (map pin (waves_of (handlers timer)))).
  { compute_done. }
  assert (H0 : Wave.counter wave0 (exec (Timer.handleCOMPA timer) reset) = 1).
  { rewrite (H Hnd wave0); [reflexivity |].
    apply list_elem_of_In. simpl. tauto. }
  assert (H3 : Wave.counter wave3 (exec (Timer.handleCOMPA timer) reset) = 1).
  { rewrite (H Hnd wave3); [reflexivity |].
    apply list_elem_of_In. simpl. tauto. }
  split; [exact H0 |]. split; [exact H3 |].
  split.
  - rewrite (Hlv Hpins wave0), H0; [reflexivity |].
    apply list_elem_of_In. simpl. tauto.
  - rewrite (Htr Hnd). cbn [handlers waves_of timer Handler1 Handler2
                             Handler3 Handler4 map].
    rewrite !(H Hnd); try (apply list_elem_of_In; simpl; tauto).
    reflexivity.
Defined.

(** * Further properties of the LFSR *)

Section LFSR_more.

Lemma after_S_r (n : nat) :
  forall self, LFSR.after (S n) self = snd (LFSR.next (LFSR.after n self)).
Proof.
  induction n as [| n IH]; intros self; [reflexivity |].
  change (LFSR.after (S (S n)) self)
    with (LFSR.after (S n) (snd (LFSR.next self))).
  rewrite IH. reflexivity.
Qed.

Lemma after_wf (n : nat) (self : LFSR.t) :
  LFSR.wf self -> LFSR.wf (LFSR.after n self).
Proof.
  intros Hwf. destruct n as [| n]; [exact Hwf |].
  rewrite after_S_r. apply next_wf.
Qed.

Lemma bits_S (n : nat) (self : LFSR.t) :
  LFSR.bits (S n) self =
    fst (LFSR.next self) :: LFSR.bits n (snd (LFSR.next self)).
Proof. cbn [LFSR.bits]. destruct (LFSR.next self). reflexivity. Qed.

Lemma bits_S_r (n : nat) :
  forall self, LFSR.bits (S n) self = LFSR.bits n self ++ [LFSR_out n self].
Proof.
  induction n as [| n IH]; intros self.
  - rewrite bits_S. reflexivity.
  - rewrite bits_S, IH, (bits_S n self). reflexivity.
Qed.

Lemma next_injective_reg (s1 s2 : Z) :
  0 <= s1 < 65536 -> 0 <= s2 < 65536 ->
  LFSR.reg (snd (LFSR.next (LFSR.mk s1))) =
    LFSR.reg (snd (LFSR.next (LFSR.mk s2))) ->
  s1 = s2.
Proof.
  intros H1 H2 Heq.
  assert (Hbit : forall i, 0 <= i ->
            (if i =? 15 then taps s1
             else if i <? 15 then Z.testbit s1 (i + 1) else false) =
            (if i =? 15 then taps s2
             else if i <? 15 then Z.testbit s2 (i + 1) else false)).
  { intros i Hi. rewrite <- !next_snd_bits by assumption. rewrite Heq.
    reflexivity. }
  assert (Hhigh : forall i, 1 <= i -> Z.testbit s1 i = Z.testbit s2 i).
  { intros i Hi. destruct (Z.lt_ge_cases i 16) as [Hlt | Hge].
    - specialize (Hbit (i - 1) ltac:(lia)).
      destruct (Z.eqb_spec (i - 1) 15); [lia |].
      destruct (Z.ltb_spec (i - 1) 15); [| lia].
      replace (i - 1 + 1) with i in Hbit by lia. exact Hbit.
    - rewrite !testbit_u16_high by lia. reflexivity. }
  apply Z.bits_inj'. intros i Hi.
  destruct (Z.eq_dec i 0) as [-> | Hne]; [| apply Hhigh; lia].
  specialize (Hbit 15 ltac:(lia)). cbn in Hbit. unfold taps in Hbit.
  rewrite (Hhigh 1), (Hhigh 3), (Hhigh 12) in Hbit by lia.
  destruct (Z.testbit s1 0), (Z.testbit s2 0), (Z.testbit s2 1),
    (Z.testbit s2 3), (Z.testbit s2 12); (reflexivity || discriminate Hbit).
Qed.

Lemma after_zero (n : nat) : LFSR.after n (LFSR.mk 0) = LFSR.mk 0.
Proof. induction n as [| n IH]; [reflexivity | exact IH]. Qed.

Lemma bits_zero (n : nat) : LFSR.bits n (LFSR.mk 0) = List.repeat false n.
Proof.
  induction n as [| n IH]; [reflexivity |].
  change (LFSR.bits (S n) (LFSR.mk 0)) with (false :: LFSR.bits n (LFSR.mk 0)).
  rewrite IH. reflexivity.
Qed.

(** The bit handed out by a call sits at bit 15 afterwards and moves one
    place down with every further call. *)
Lemma out_in_register (self : LFSR.t) (n j : nat) :
  LFSR.wf self -> (j <= 15)%nat ->
  Z.testbit (LFSR.reg (LFSR.after (n + S j) self)) (15 - Z.of_nat j) =
    LFSR_out n self.
Proof.
  intros Hwf. induction j as [| j IH]; intros Hj.
  - rewrite Nat.add_1_r, after_S_r.
    pose proof (after_wf n self Hwf) as Hn.
    unfold LFSR_out. destruct (LFSR.after n self) as [r].
    unfold LFSR.wf in Hn. cbn [LFSR.reg] in Hn.
    rewrite next_snd_bits, next_fst by lia. reflexivity.
  - rewrite Nat.add_succ_r, after_S_r.
    pose proof (after_wf (n + S j) self Hwf) as Hn.
    specialize (IH ltac:(lia)).
    destruct (LFSR.after (n + S j) self) as [r].
    unfold LFSR.wf in Hn. cbn [LFSR.reg] in Hn, IH.
    rewrite next_snd_bits by lia.
    destruct (Z.eqb_spec (15 - Z.of_nat (S j)) 15); [lia |].
    destruct (Z.ltb_spec (15 - Z.of_nat (S j)) 15); [| lia].
    replace (15 - Z.of_nat (S j) + 1) with (15 - Z.of_nat j) by lia.
    exact IH.
Qed.

End LFSR_more.

(** X1. [next()] never merges two states: two different 16-bit registers
    have different successors, so the state before a call can be told
    from the state after it. *)
Theorem X1_next_injective (a b : LFSR.t)
    (Ha : LFSR.wf a) (Hb : LFSR.wf b) (Hne : a <> b) :
  snd (LFSR.next a) <> snd (LFSR.next b).
Proof.
  intros Heq. apply Hne.
  destruct a as [s1], b as [s2]. unfold LFSR.wf in Ha, Hb.
  cbn [LFSR.reg] in Ha, Hb. f_equal.
  apply next_injective_reg; [assumption | assumption |].
  rewrite Heq. reflexivity.
Qed.

Lemma X1_witness :
  snd (LFSR.next (LFSR.mk 0xA1E)) <> snd (LFSR.next (LFSR.mk 0xA1F)).
Proof.
  apply (X1_next_injective (LFSR.mk 0xA1E) (LFSR.mk 0xA1F));
    [unfold LFSR.wf; simpl; lia | unfold LFSR.wf; simpl; lia | discriminate].
Defined.

(** X2. The zero register is a dead end and the only one: a 16-bit state
    has successor 0 exactly when it is 0, and an LFSR constructed with a
    seed that is a multiple of 65536 hands out [false] on every call and
    keeps the register at 0. *)
Theorem X2_zero_seed_is_stuck (seed : Z) (Hz : seed mod 65536 = 0) :
  (forall n, LFSR.bits n (LFSR.new seed) = List.repeat false n)
  /\ (forall n, LFSR.reg (LFSR.after n (LFSR.new seed)) = 0)
  /\ (forall s, 0 <= s < 65536 ->
        (LFSR.reg (snd (LFSR.next (LFSR.mk s))) = 0 <-> s = 0)).
Proof.
  assert (Hnew : LFSR.new seed = LFSR.mk 0)
    by (unfold LFSR.new, u16; rewrite Hz; reflexivity).
  rewrite Hnew. split; [apply bits_zero |].
  split; [intros n; rewrite after_zero; reflexivity |].
  intros s Hs. split.
  - intros Hnext. destruct (Z.eq_dec s 0) as [-> | Hne]; [reflexivity |].
    exfalso. apply (next_nonzero s); [lia | exact Hnext].
  - intros ->. reflexivity.
Qed.

Lemma X2_witness :
  LFSR.bits 3 (LFSR.new 65536) = [false; false; false].
Proof.
  destruct (X2_zero_seed_is_stuck 65536 eq_refl) as [H _]. exact (H 3%nat).
Defined.

(** X3. The register is a window on the bits handed out: once an object
    made by the constructor has been called [n + 16] times, bit [i] of
    its register ([i] from 0 to 15) is the bit that call number [n + i]
    returned. *)
Theorem X3_register_holds_last_16_bits (seed : Z) (n i : nat)
    (Hi : (i <= 15)%nat) :
  Z.testbit (LFSR.reg (LFSR.after (n + 16) (LFSR.new seed))) (Z.of_nat i) =
    LFSR_out (n + i) (LFSR.new seed).
Proof.
  pose proof (out_in_register (LFSR.new seed) (n + i) (15 - i)
                (new_wf seed) ltac:(lia)) as H.
  replace (n + i + S (15 - i))%nat with (n + 16)%nat in H by lia.
  replace (15 - Z.of_nat (15 - i)) with (Z.of_nat i) in H by lia.
  exact H.
Qed.

Lemma X3_witness :
  Z.testbit (LFSR.reg (LFSR.after 16 lsfr1)) 0 = LFSR_out 0 lsfr1.
Proof.
  apply (X3_register_holds_last_16_bits 0xA1e 0 0). lia.
Defined.

(** X4. The bits handed out obey the recurrence of the taps: the bit of
    call [n + 16] is the exclusive or of the bits of calls [n], [n + 1],
    [n + 3] and [n + 12], for every seed. *)
Theorem X4_output_recurrence (seed : Z) (n : nat) :
  let out k := LFSR_out k (LFSR.new seed) in
  out (n + 16)%nat =
    xorb (xorb (xorb (out n) (out (n + 1)%nat)) (out (n + 3)%nat))
         (out (n + 12)%nat).
Proof.
  cbv zeta. pose proof (new_wf seed) as Hwf.
  unfold LFSR_out at 1. rewrite next_fst. unfold taps.
  pose proof (out_in_register (LFSR.new seed) n 15 Hwf ltac:(lia)) as H0.
  pose proof (out_in_register (LFSR.new seed) (n + 1) 14 Hwf ltac:(lia)) as H1.
  pose proof (out_in_register (LFSR.new seed) (n + 3) 12 Hwf ltac:(lia)) as H3.
  pose proof (out_in_register (LFSR.new seed) (n + 12) 3 Hwf ltac:(lia)) as H12.
  replace (n + 1 + 15)%nat with (n + 16)%nat in H1 by lia.
  replace (n + 3 + 13)%nat with (n + 16)%nat in H3 by lia.
  replace (n + 12 + 4)%nat with (n + 16)%nat in H12 by lia.
  change (15 - Z.of_nat 15) with 0 in H0.
  change (15 - Z.of_nat 14) with 1 in H1.
  change (15 - Z.of_nat 12) with 3 in H3.
  change (15 - Z.of_nat 3) with 12 in H12.
  rewrite H0, H1, H3, H12. reflexivity.
Qed.

(** * Further properties of the wave generators *)

Section Wave_more.

Variable w : WaveT.

Lemma half_below_cycle :
  0 <= Wave.half_period_ticks w <= cycle_ticks w - 2.
Proof.
  pose proof (period_ticks_range w) as Hr.
  rewrite half_period_ticks_eq. unfold cycle_ticks.
  split; [apply Z.div_pos; lia |].
  assert (Wave.period_ticks w / 2 <= Wave.period_ticks w)
    by (apply Z.div_le_upper_bound; lia).
  assert (Wave.period_ticks w / 2 < 128)
    by (apply Z.div_lt_upper_bound; lia).
  lia.
Qed.

(** The level after call number [k >= 1], from the call number alone. *)
Lemma output_after_mod (k : nat) :
  output_after w (S k) = output_of w (Z.of_nat (S k) mod cycle_ticks w).
Proof.
  unfold output_after. rewrite ticks_S, tick_level, <- ticks_S.
  fold (counter_after w (S k)). rewrite counter_after_mod. reflexivity.
Qed.

Lemma falls_as_highs (g : nat -> bool) (n : nat) :
  forall a,
    falls (g a) (map g (seq (S a) n)) =
      highs (map (fun k => g k && negb (g (S k))) (seq a n)).
Proof.
  induction n as [| n IH]; intros a; [reflexivity |].
  cbn [seq map falls highs]. rewrite IH. reflexivity.
Qed.

Lemma rises_as_highs (g : nat -> bool) (n : nat) :
  forall a,
    rises (g a) (map g (seq (S a) n)) =
      highs (map (fun k => negb (g k) && g (S k)) (seq a n)).
Proof.
  induction n as [| n IH]; intros a; [reflexivity |].
  cbn [seq map rises highs]. rewrite IH. reflexivity.
Qed.

Lemma highs_at (n : nat) (b : Z) :
  0 <= b ->
  highs (map (fun k : nat => Z.of_nat k =? b) (seq 0 n)) =
    if b <? Z.of_nat n then 1%nat else 0%nat.
Proof.
  intros Hb. induction n as [| n IH].
  - cbn [seq map highs]. destruct (Z.ltb_spec b (Z.of_nat 0)); [lia | reflexivity].
  - rewrite seq_S, map_app, highs_app, IH. cbn [map highs Nat.add].
    destruct (Z.eqb_spec (Z.of_nat n) b), (Z.ltb_spec b (Z.of_nat n)),
      (Z.ltb_spec b (Z.of_nat (S n))); lia.
Qed.

Lemma mod_cycle_succ (k : nat) :
  (k < Z.to_nat (cycle_ticks w))%nat ->
  Z.of_nat k mod cycle_ticks w = Z.of_nat k
  /\ Z.of_nat (S k) mod cycle_ticks w =
       if Z.of_nat k =? cycle_ticks w - 1 then 0 else Z.of_nat k + 1.
Proof.
  intros Hk. pose proof (cycle_ticks_range w) as HP.
  split; [apply Z.mod_small; lia |].
  destruct (Z.eqb_spec (Z.of_nat k) (cycle_ticks w - 1)) as [He | Hne].
  - replace (Z.of_nat (S k)) with (cycle_ticks w) by lia.
    apply Z_mod_same_full.
  - rewrite Z.mod_small by lia. lia.
Qed.

Lemma edges_per_cycle (a : nat) :
  let P := Z.to_nat (cycle_ticks w) in
  falls (output_after w (S a)) (outputs P w (ticks (S a) w reset)) = 1%nat
  /\ rises (output_after w (S a)) (outputs P w (ticks (S a) w reset)) = 1%nat.
Proof.
  cbv zeta. pose proof (cycle_ticks_range w) as HP.
  pose proof half_below_cycle as Hh.
  set (g := fun k : nat => output_of w (Z.of_nat k mod cycle_ticks w)).
  assert (Hg : forall k, g (k + Z.to_nat (cycle_ticks w))%nat = g k).
  { intros k. unfold g. rewrite Nat2Z.inj_add, Z2Nat.id by lia.
    rewrite <- (Z.mul_1_l (cycle_ticks w)) at 1.
    rewrite Z.mod_add by lia. reflexivity. }
  rewrite outputs_ticks, output_after_mod.
  change (output_of w (Z.of_nat (S a) mod cycle_ticks w)) with (g (S a)).
  change (map (fun k : nat => output_of w (Z.of_nat k mod cycle_ticks w)))
    with (map g).
  rewrite falls_as_highs, rises_as_highs. split.
  - rewrite highs_window_shift
      by (intros k; cbv beta; rewrite Hg;
          change (S (k + Z.to_nat (cycle_ticks w)))
            with (S k + Z.to_nat (cycle_ticks w))%nat;
          rewrite Hg; reflexivity).
    rewrite (map_ext_in _
               (fun k : nat => Z.of_nat k =? Wave.half_period_ticks w)).
    + rewrite highs_at by lia.
      destruct (Z.ltb_spec (Wave.half_period_ticks w)
                  (Z.of_nat (Z.to_nat (cycle_ticks w)))); [reflexivity | lia].
    + intros k Hk. apply in_seq in Hk.
      destruct (mod_cycle_succ k ltac:(lia)) as [H0 H1].
      unfold g, output_of. rewrite H0, H1.
      destruct (Z.eqb_spec (Z.of_nat k) (cycle_ticks w - 1));
        destruct (Z.leb_spec (Z.of_nat k) (Wave.half_period_ticks w));
        destruct (Z.eqb_spec (Z.of_nat k) (Wave.half_period_ticks w));
        cbn [andb negb];
        try destruct (Z.leb_spec 0 (Wave.half_period_ticks w));
        try destruct (Z.leb_spec (Z.of_nat k + 1) (Wave.half_period_ticks w));
        cbn [andb negb]; (reflexivity || lia).
  - rewrite highs_window_shift
      by (intros k; cbv beta; rewrite Hg;
          change (S (k + Z.to_nat (cycle_ticks w)))
            with (S k + Z.to_nat (cycle_ticks w))%nat;
          rewrite Hg; reflexivity).
    rewrite (map_ext_in _
               (fun k : nat => Z.of_nat k =? cycle_ticks w - 1)).
    + rewrite highs_at by lia.
      destruct (Z.ltb_spec (cycle_ticks w - 1)
                  (Z.of_nat (Z.to_nat (cycle_ticks w)))); [reflexivity | lia].
    + intros k Hk. apply in_seq in Hk.
      destruct (mod_cycle_succ k ltac:(lia)) as [H0 H1].
      unfold g, output_of. rewrite H0, H1.
      destruct (Z.eqb_spec (Z.of_nat k) (cycle_ticks w - 1));
        destruct (Z.leb_spec (Z.of_nat k) (Wave.half_period_ticks w));
        cbn [andb negb];
        try destruct (Z.leb_spec 0 (Wave.half_period_ticks w));
        try destruct (Z.leb_spec (Z.of_nat k + 1) (Wave.half_period_ticks w));
        cbn [andb negb]; (reflexivity || lia).
Qed.

End Wave_more.

(** X5. Once the pin has been driven, every window of one counter cycle
    ([period_ticks + 2] calls of [tick()], or 256 when [period_ticks] is
    255) sees the output fall exactly once and rise exactly once,
    wherever the window starts and for every wave. *)
Theorem X5_one_fall_one_rise_per_cycle (w : WaveT) (a : nat) :
  let p := Wave.period_ticks w in
  let P := Z.to_nat (if p <=? 254 then p + 2 else 256) in
  falls (output_after w (S a)) (outputs P w (ticks (S a) w reset)) = 1%nat
  /\ rises (output_after w (S a)) (outputs P w (ticks (S a) w reset)) = 1%nat.
Proof.
  cbv zeta.
  assert (HP : (if Wave.period_ticks w <=? 254
                then Wave.period_ticks w + 2 else 256) = cycle_ticks w).
  { unfold cycle_ticks. pose proof (period_ticks_range w).
    destruct (Z.leb_spec (Wave.period_ticks w) 254); lia. }
  rewrite HP. apply edges_per_cycle.
Qed.

(** X6. [begin()] on a wave whose static object has not been used yet
    makes the pin an output, leaves the counter at 1 and drives the pin
    HIGH when [period_ticks >= 2] and LOW when [period_ticks] is 0 or 1;
    it performs exactly these two pin operations. *)
Theorem X6_begin_from_fresh (w : WaveT) (m : Machine)
    (Hfresh : statics m !! wave_key w = None) :
  let m' := exec (Wave.begin w) m in
  Wave.counter w m' = 1
  /\ level (pin w) m' = (2 <=? Wave.period_ticks w)
  /\ pin w ∈ ddr m'
  /\ trace m' = trace m ++
       [EvSetOutput (pin w);
        if 2 <=? Wave.period_ticks w then EvSetHigh (pin w)
        else EvSetLow (pin w)].
Proof.
  cbv zeta. pose proof (period_ticks_range w) as Hr.
  pose proof (half_period_ticks_eq w) as Hh.
  unfold Wave.begin. rewrite exec_seq.
  set (m0 := exec (FastPin.setOutput (pin w)) m).
  assert (Hc0 : Wave.counter w m0 = 0).
  { unfold Wave.counter, m0. cbn [exec FastPin.setOutput snd statics].
    rewrite Hfresh. reflexivity. }
  assert (Hn : next_counter w 0 = 1).
  { unfold next_counter. destruct (Z.leb_spec 0 (Wave.period_ticks w)); [reflexivity | lia]. }
  assert (Ho : output_of w 1 = (2 <=? Wave.period_ticks w)).
  { unfold output_of. rewrite Hh.
    destruct (Z.leb_spec 2 (Wave.period_ticks w)) as [Hge | Hlt].
    - apply Z.leb_le. apply Z.div_le_lower_bound; lia.
    - apply Z.leb_gt. apply Z.div_lt_upper_bound; lia. }
  split; [rewrite tick_counter, Hc0; exact Hn |].
  split; [rewrite tick_level, tick_counter, Hc0, Hn; exact Ho |].
  rewrite tick_effect. cbv zeta. rewrite Hc0, Hn, Ho. cbn [ddr trace].
  split.
  - unfold m0. cbn [exec FastPin.setOutput snd ddr].
    apply elem_of_union_l, elem_of_singleton. reflexivity.
  - unfold m0. cbn [exec FastPin.setOutput snd trace].
    rewrite <- app_assoc. reflexivity.
Qed.

Lemma X6_witness :
  let m' := exec (Wave.begin wave_fast) reset in
  Wave.counter wave_fast m' = 1 /\ level (pin wave_fast) m' = false.
Proof.
  cbv zeta.
  destruct (X6_begin_from_fresh wave_fast reset (lookup_empty _))
    as (Hc & Hl & _).
  cbv zeta in Hc, Hl. split; [exact Hc | exact Hl].
Defined.

(** X7. A wave asked to be faster than the timer
    ([frequency * tick_period_us > 1000000]) gets [period_ticks = 0] and
    [half_period_ticks = 0]; its pin is LOW after the first call of
    [tick()] and changes level on every call after that. *)
Theorem X7_too_fast_wave_alternates (w : WaveT) (Hwf : Wave.wf w)
    (Hfast : 1000000 < frequency w * tick_period_us w) :
  Wave.period_ticks w = 0
  /\ Wave.half_period_ticks w = 0
  /\ output_after w 1 = false
  /\ forall n, output_after w (S (S n)) = negb (output_after w (S n)).
Proof.
  destruct Hwf as [Ht Hf].
  assert (Hp : Wave.period_ticks w = 0).
  { unfold Wave.period_ticks. rewrite Z.div_div by lia.
    rewrite Z.div_small by lia. reflexivity. }
  assert (Hh : Wave.half_period_ticks w = 0)
    by (rewrite half_period_ticks_eq, Hp; reflexivity).
  assert (Hc : cycle_ticks w = 2) by (unfold cycle_ticks; rewrite Hp; reflexivity).
  split; [exact Hp |]. split; [exact Hh |].
  split.
  - rewrite output_after_mod, Hc. unfold output_of. rewrite Hh. reflexivity.
  - intros n. rewrite !output_after_mod, Hc. unfold output_of. rewrite Hh.
    pose proof (Z.mod_pos_bound (Z.of_nat (S n)) 2 ltac:(lia)).
    pose proof (Z.mod_pos_bound (Z.of_nat (S (S n))) 2 ltac:(lia)).
    pose proof (Z.div_mod (Z.of_nat (S n)) 2 ltac:(lia)).
    pose proof (Z.div_mod (Z.of_nat (S (S n))) 2 ltac:(lia)).
    destruct (Z.leb_spec (Z.of_nat (S (S n)) mod 2) 0),
      (Z.leb_spec (Z.of_nat (S n) mod 2) 0); cbn [negb]; (reflexivity || lia).
Qed.

Lemma X7_witness :
  Wave.period_ticks wave_faster = 0
  /\ output_after wave_faster 2 = negb (output_after wave_faster 1).
Proof.
  assert (Hwf : Wave.wf wave_faster)
    by (unfold Wave.wf, wave_faster, timer_period_us; simpl; lia).
  assert (Hfast : 1000000 < frequency wave_faster * tick_period_us wave_faster)
    by (unfold wave_faster, timer_period_us; simpl; lia).
  destruct (X7_too_fast_wave_alternates wave_faster Hwf Hfast)
    as (Hp & _ & _ & Halt).
  split; [exact Hp | exact (Halt O)].
Defined.

(** * Further properties of the timer and of the program *)

Section Program_facts.

Lemma begin_counter (w : WaveT) (m : Machine) :
  Wave.counter w (exec (Wave.begin w) m) = next_counter w (Wave.counter w m).
Proof. unfold Wave.begin. rewrite exec_seq, tick_counter. reflexivity. Qed.

Lemma begin_counter_other (w w' : WaveT) (m : Machine) :
  wave_key w' <> wave_key w ->
  Wave.counter w' (exec (Wave.begin w) m) = Wave.counter w' m.
Proof.
  intros Hne. unfold Wave.begin.
  rewrite exec_seq, tick_counter_other by exact Hne. reflexivity.
Qed.

Lemma begin_ddr (w : WaveT) (m : Machine) :
  ddr (exec (Wave.begin w) m) = {[ pin w ]} ∪ ddr m.
Proof. unfold Wave.begin. rewrite exec_seq, tick_effect. reflexivity. Qed.

Lemma begin_all_cons (h : Handler) (hs : list Handler) (m : Machine) :
  begin_all (h :: hs) m = begin_all hs (exec (Handler_begin h) m).
Proof. reflexivity. Qed.

Lemma begin_all_counter (hs : list Handler) :
  forall (m : Machine) (w : WaveT),
    NoDup (map wave_key (waves_of hs)) ->
    (w ∈ waves_of hs ->
     Wave.counter w (begin_all hs m) = next_counter w (Wave.counter w m))
    /\ (wave_key w ∉ map wave_key (waves_of hs) ->
        Wave.counter w (begin_all hs m) = Wave.counter w m).
Proof.
  induction hs as [| h hs IH]; intros m w Hnd.
  - split; [intros Hin; inversion Hin | reflexivity].
  - rewrite begin_all_cons. destruct h as [| w0].
    + cbn [waves_of] in *. apply IH. exact Hnd.
    + cbn [waves_of map Handler_begin] in *.
      apply NoDup_cons in Hnd as [Hfresh Hnd].
      destruct (IH (exec (Wave.begin w0) m) w Hnd) as [IHin IHout].
      split.
      * intros Hin. apply elem_of_cons in Hin as [-> | Hin].
        -- rewrite IHout by exact Hfresh. apply begin_counter.
        -- rewrite IHin by exact Hin.
           rewrite begin_counter_other; [reflexivity |].
           intros Heq. apply Hfresh. rewrite <- Heq.
           apply list_elem_of_fmap_2. exact Hin.
      * intros Hout. apply not_elem_of_cons in Hout as [Hne Hout].
        rewrite IHout by exact Hout.
        apply begin_counter_other. exact Hne.
Qed.

Lemma begin_all_ddr (hs : list Handler) :
  forall m : Machine,
    ddr m ⊆ ddr (begin_all hs m)
    /\ forall w, w ∈ waves_of hs -> pin w ∈ ddr (begin_all hs m).
Proof.
  induction hs as [| h hs IH]; intros m.
  - split; [reflexivity | intros w Hin; inversion Hin].
  - rewrite begin_all_cons.
    destruct (IH (exec (Handler_begin h) m)) as [IHsub IHin].
    destruct h as [| w0].
    + split; [exact IHsub | exact IHin].
    + cbn [Handler_begin waves_of] in *. rewrite begin_ddr in IHsub.
      split.
      * intros x Hx. apply IHsub. apply elem_of_union_r. exact Hx.
      * intros w Hin. apply elem_of_cons in Hin as [-> | Hin].
        -- apply IHsub. apply elem_of_union_l, elem_of_singleton. reflexivity.
        -- apply IHin. exact Hin.
Qed.

Lemma Handler_begin_noise (h : Handler) (m : Machine) :
  noise (exec (Handler_begin h) m) = noise m.
Proof.
  destruct h as [| w]; [reflexivity |].
  cbn [Handler_begin]. unfold Wave.begin. rewrite exec_seq, tick_effect.
  reflexivity.
Qed.

Lemma begin_all_noise (hs : list Handler) :
  forall m, noise (begin_all hs m) = noise m.
Proof.
  induction hs as [| h hs IH]; intros m; [reflexivity |].
  rewrite begin_all_cons, IH. apply Handler_begin_noise.
Qed.

(** [Timer::begin()] is its register set-up followed by the handlers'
    [begin()]; the set-up touches registers only. *)
Lemma Timer_begin_split (T : TimerT) (m : Machine) :
  exists m0,
    exec (Timer.begin T) m = begin_all (handlers T) m0
    /\ statics m0 = statics m /\ ddr m0 = ddr m /\ port m0 = port m
    /\ noise m0 = noise m /\ sreg_i m0 = sreg_i m.
Proof.
  unfold Timer.begin. repeat (rewrite exec_seq || rewrite exec_read).
  eexists. split; [reflexivity |]. repeat split.
Qed.

Lemma Timer_begin_all_regs (T : TimerT) (m : Machine) (r : reg8) :
  regs (exec (Timer.begin T) m) r =
    match r with
    | TCCR0A => 2
    | TCCR0B => 2
    | TIMSK => 16
    | OCR0A => period_us T mod 256
    | TIFR => regs m TIFR
    end.
Proof.
  unfold Timer.begin. repeat (rewrite exec_seq || rewrite exec_read).
  rewrite !Handler_begin_regs. destruct r; reflexivity.
Qed.

Lemma Handler_tick_frame (h : Handler) (m : Machine) :
  noise (exec (Handler_tick h) m) = noise m
  /\ ddr (exec (Handler_tick h) m) = ddr m
  /\ sreg_i (exec (Handler_tick h) m) = sreg_i m.
Proof.
  destruct h as [| w]; [repeat split |].
  cbn [Handler_tick]. rewrite tick_effect. repeat split.
Qed.

Lemma tick_all_frame (hs : list Handler) :
  forall m,
    noise (tick_all hs m) = noise m
    /\ ddr (tick_all hs m) = ddr m
    /\ sreg_i (tick_all hs m) = sreg_i m.
Proof.
  induction hs as [| h hs IH]; intros m; [repeat split |].
  rewrite tick_all_cons.
  destruct (IH (exec (Handler_tick h) m)) as (-> & -> & ->).
  apply Handler_tick_frame.
Qed.

(** Writing back what was read from [TIFR] with one more bit set clears
    every flag that was pending. *)
Lemma tifr_write_back (f : Z) :
  0 <= f < 256 -> store TIFR (Z.lor f (_BV OCF0A)) f = 0.
Proof.
  intros Hf. unfold store, u8. apply Z.bits_inj'. intros i Hi.
  rewrite Z.land_spec, Z.lnot_spec, Z.bits_0 by lia.
  change 256 with (2 ^ 8).
  destruct (Z.lt_ge_cases i 8) as [Hlt | Hge].
  - rewrite Z.mod_pow2_bits_low, Z.lor_spec by lia.
    destruct (Z.testbit f i); reflexivity.
  - rewrite (Z.bits_above_log2 f i); [reflexivity | lia |].
    destruct (Z.eq_dec f 0) as [-> | Hne]; [cbn; lia |].
    apply Z.log2_lt_pow2; [lia |].
    apply Z.lt_le_trans with (2 ^ 8); [change (2 ^ 8) with 256; lia |].
    apply Z.pow_le_mono_r; lia.
Qed.

Lemma loop_effect (m : Machine) :
  exec loop m =
    let b := fst (LFSR.next (noise m)) in
    {| regs := regs m; sreg_i := sreg_i m; statics := statics m;
       ddr := ddr m; port := <[ NoisePin := b ]> (port m);
       noise := snd (LFSR.next (noise m));
       trace := trace m ++ [noise_event b] |}.
Proof.
  unfold loop, exec, mbind, M_bind, lsfr1_next. cbv zeta.
  destruct (LFSR.next (noise m)) as [b o]. destruct b; reflexivity.
Qed.

Lemma loops_S (n : nat) (m : Machine) :
  loops (S n) m = exec loop (loops n m).
Proof. reflexivity. Qed.

Lemma loops_noise (n : nat) (m : Machine) :
  noise (loops n m) = LFSR.after n (noise m).
Proof.
  induction n as [| n IH]; [reflexivity |].
  rewrite loops_S, loop_effect, after_S_r. cbv zeta. cbn [noise].
  rewrite IH. reflexivity.
Qed.

Lemma loops_trace (n : nat) (m : Machine) :
  trace (loops n m) = trace m ++ map noise_event (LFSR.bits n (noise m)).
Proof.
  induction n as [| n IH].
  - cbn [loops Nat.iter nat_rect LFSR.bits map]. rewrite app_nil_r. reflexivity.
  - rewrite loops_S, loop_effect, bits_S_r, map_app. cbv zeta. cbn [trace map].
    rewrite IH, loops_noise, <- app_assoc. reflexivity.
Qed.

Lemma loops_frame (n : nat) (m : Machine) :
  statics (loops n m) = statics m /\ regs (loops n m) = regs m
  /\ ddr (loops n m) = ddr m /\ sreg_i (loops n m) = sreg_i m.
Proof.
  induction n as [| n IH]; [repeat split |].
  rewrite loops_S, loop_effect. cbv zeta. cbn [statics regs ddr sreg_i].
  exact IH.
Qed.

Lemma counter_ticks (w : WaveT) (n : nat) (m : Machine) :
  Wave.counter w (ticks n w m) =
    Nat.iter n (next_counter w) (Wave.counter w m).
Proof.
  induction n as [| n IH]; [reflexivity |].
  rewrite ticks_S, tick_counter, IH. reflexivity.
Qed.

Lemma fire_counter (T : TimerT) (m : Machine) (w : WaveT) :
  NoDup (map wave_key (waves_of (handlers T))) ->
  w ∈ waves_of (handlers T) ->
  Wave.counter w (exec (Timer.handleCOMPA T) m) =
    next_counter w (Wave.counter w m).
Proof.
  intros Hnd Hin. rewrite handleCOMPA_tick_all.
  change (Wave.counter w (exec (write TIFR _) ?m1)) with (Wave.counter w m1).
  apply tick_all_counter; assumption.
Qed.

Lemma fire_noise (T : TimerT) (m : Machine) :
  noise (exec (Timer.handleCOMPA T) m) = noise m.
Proof.
  rewrite handleCOMPA_tick_all.
  change (noise (exec (write TIFR _) ?m1)) with (noise m1).
  apply tick_all_frame.
Qed.

Lemma fire_level_other (T : TimerT) (m : Machine) (n : Z) :
  (forall w, w ∈ waves_of (handlers T) -> pin w <> n) ->
  level n (exec (Timer.handleCOMPA T) m) = level n m.
Proof.
  intros Hpins. rewrite handleCOMPA_tick_all.
  change (level n (exec (write TIFR _) ?m1)) with (level n m1).
  apply tick_all_level_other. exact Hpins.
Qed.

Lemma interleave_cons (T : TimerT) (a : activity) (s : list activity)
    (m : Machine) :
  interleave T (a :: s) m = interleave T s (act T a m).
Proof. reflexivity. Qed.

Lemma interleave_noise (T : TimerT) (s : list activity) :
  forall m, noise (interleave T s m) = LFSR.after (iterations s) (noise m).
Proof.
  induction s as [| a s IH]; intros m; [reflexivity |].
  rewrite interleave_cons, IH. destruct a; cbn [act iterations].
  - rewrite fire_noise. reflexivity.
  - rewrite loop_effect. reflexivity.
Qed.

Lemma interleave_counter (T : TimerT) (s : list activity) (w : WaveT) :
  NoDup (map wave_key (waves_of (handlers T))) ->
  w ∈ waves_of (handlers T) ->
  forall m,
    Wave.counter w (interleave T s m) =
      Nat.iter (fires s) (next_counter w) (Wave.counter w m).
Proof.
  intros Hnd Hin. induction s as [| a s IH]; intros m; [reflexivity |].
  rewrite interleave_cons, IH. destruct a; cbn [act fires].
  - rewrite fire_counter by assumption. rewrite Nat.iter_succ_r. reflexivity.
  - rewrite loop_effect. reflexivity.
Qed.

Lemma interleave_noise_level (T : TimerT) (s : list activity) :
  (forall w, w ∈ waves_of (handlers T) -> pin w <> NoisePin) ->
  forall m,
    level NoisePin (interleave T s m) =
      match iterations s with
      | O => level NoisePin m
      | S k => LFSR_out k (noise m)
      end.
Proof.
  intros Hpins. induction s as [| a s IH]; intros m; [reflexivity |].
  rewrite interleave_cons, IH. destruct a; cbn [act iterations].
  - rewrite fire_level_other, fire_noise by exact Hpins. reflexivity.
  - rewrite loop_effect. cbv zeta. unfold level at 1. cbn [port noise].
    rewrite lookup_insert_eq.
    destruct (iterations s); reflexivity.
Qed.

Lemma loops_noise_level (n : nat) (m : Machine) :
  level NoisePin (loops n m) =
    match n with
    | O => level NoisePin m
    | S k => LFSR_out k (noise m)
    end.
Proof.
  destruct n as [| k]; [reflexivity |].
  rewrite loops_S, loop_effect. cbv zeta. unfold level. cbn [port].
  rewrite lookup_insert_eq, loops_noise. reflexivity.
Qed.

Lemma sei_counter (w : WaveT) (m : Machine) :
  Wave.counter w (exec sei m) = Wave.counter w m.
Proof. reflexivity. Qed.

Lemma sei_noise (m : Machine) : noise (exec sei m) = noise m.
Proof. reflexivity. Qed.

Lemma main_init_counter (T : TimerT) (w : WaveT) :
  NoDup (map wave_key (waves_of (handlers T))) ->
  w ∈ waves_of (handlers T) ->
  Wave.counter w (exec (main_init T) reset) = next_counter w 0
  /\ noise (exec (main_init T) reset) = lsfr1.
Proof.
  intros Hnd Hin. unfold main_init, setup_with. rewrite !exec_seq.
  rewrite sei_counter, sei_noise.
  destruct (Timer_begin_split T (exec (FastPin.setOutput NoisePin) reset))
    as (m0 & -> & Hst & _ & _ & Hno & _).
  rewrite begin_all_noise, Hno.
  destruct (begin_all_counter (handlers T) m0 w Hnd) as [Hc _].
  rewrite Hc by exact Hin.
  unfold Wave.counter at 1. rewrite Hst. cbn [exec FastPin.setOutput snd statics reset].
  rewrite lookup_empty. split; reflexivity.
Qed.

End Program_facts.

(** X8. [Timer::begin()] fixes the timer registers whatever they held
    before: CTC mode, the compare-match A interrupt as the only enabled
    one, the clock at CLK/8, and [period_us] reduced modulo 256 as the
    compare value (a period of 256 microseconds or more does not fit the
    8-bit register).  It leaves [TIFR] alone, and calling it again changes
    no register. *)
Theorem X8_timer_begin_registers (T : TimerT) (m : Machine) :
  let m1 := exec (Timer.begin T) m in
  regs m1 TCCR0A = _BV WGM01
  /\ regs m1 TCCR0B = _BV CS01
  /\ regs m1 TIMSK = _BV OCIE0A
  /\ regs m1 OCR0A = period_us T mod 256
  /\ regs m1 TIFR = regs m TIFR
  /\ forall r, regs (exec (Timer.begin T) m1) r = regs m1 r.
Proof.
  cbv zeta. rewrite !Timer_begin_all_regs.
  split; [reflexivity |]. split; [reflexivity |]. split; [reflexivity |].
  split; [reflexivity |]. split; [reflexivity |].
  intros r. rewrite !Timer_begin_all_regs. destruct r; reflexivity.
Qed.

(** X9. [Timer::begin()] calls [begin()] on every handler: afterwards the
    pin of every wave among the handlers is an output, no pin has stopped
    being one, the noise register is untouched, and, when the waves are
    pairwise different, each wave's counter is what one [tick()] makes of
    its value before. *)
Theorem X9_timer_begin_begins_handlers (T : TimerT) (m : Machine) :
  let m' := exec (Timer.begin T) m in
  ddr m ⊆ ddr m'
  /\ (forall w, w ∈ waves_of (handlers T) -> pin w ∈ ddr m')
  /\ noise m' = noise m
  /\ (NoDup (map wave_key (waves_of (handlers T))) ->
      forall w, w ∈ waves_of (handlers T) ->
                Wave.counter w m' = Wave.counter w (exec (Wave.tick w) m)).
Proof.
  cbv zeta.
  destruct (Timer_begin_split T m) as (m0 & -> & Hst & Hddr & _ & Hno & _).
  destruct (begin_all_ddr (handlers T) m0) as [Hsub Hin].
  rewrite Hddr in Hsub.
  split; [exact Hsub |]. split; [exact Hin |].
  split; [rewrite begin_all_noise; exact Hno |].
  intros Hnd w Hw.
  destruct (begin_all_counter (handlers T) m0 w Hnd) as [Hc _].
  rewrite Hc by exact Hw. rewrite tick_counter.
  unfold Wave.counter. rewrite Hst. reflexivity.
Qed.

Lemma X9_witness :
  let m' := exec (Timer.begin timer) reset in
  Wave.counter wave1 m' = 1 /\ pin wave1 ∈ ddr m'.
Proof.
  cbv zeta.
  destruct (X9_timer_begin_begins_handlers timer reset) as (_ & Hout & _ & Hc).
  cbv zeta in Hout, Hc.
  assert (Hnd : NoDup (map wave_key (waves_of (handlers timer))))
    by compute_done.
  assert (Hin : wave1 ∈ waves_of (handlers timer))
    by (apply list_elem_of_In; simpl; tauto).
  split; [rewrite (Hc Hnd wave1 Hin); reflexivity | exact (Hout wave1 Hin)].
Defined.

(** X10. One run of the compare-match handler, started with an 8-bit
    value in [TIFR], leaves [TIFR] at 0: writing back what was read
    acknowledges every pending timer flag, not only [OCF0A].  The other
    registers, the noise register, the pin directions, the interrupt
    enable and the level of every pin that belongs to no wave of the
    timer stay as they were. *)
Theorem X10_fire_clears_all_flags (T : TimerT) (m : Machine)
    (Hf : 0 <= regs m TIFR < 256) :
  let m' := exec (Timer.handleCOMPA T) m in
  regs m' TIFR = 0
  /\ (forall r, r <> TIFR -> regs m' r = regs m r)
  /\ noise m' = noise m /\ ddr m' = ddr m /\ sreg_i m' = sreg_i m
  /\ (forall n, (forall w, w ∈ waves_of (handlers T) -> pin w <> n) ->
                level n m' = level n m).
Proof.
  cbv zeta.
  split.
  { rewrite handleCOMPA_tick_all. unfold exec at 1, write.
    cbn [snd regs reg8_eqb]. rewrite tick_all_regs.
    apply tifr_write_back. exact Hf. }
  split.
  { intros r Hr. rewrite handleCOMPA_tick_all. unfold exec at 1, write.
    cbn [snd regs]. destruct r; cbn [reg8_eqb];
      try (rewrite tick_all_regs; reflexivity). contradiction. }
  split; [apply fire_noise |].
  split.
  { rewrite handleCOMPA_tick_all.
    change (ddr (exec (write TIFR _) ?m1)) with (ddr m1).
    apply tick_all_frame. }
  split.
  { rewrite handleCOMPA_tick_all.
    change (sreg_i (exec (write TIFR _) ?m1)) with (sreg_i m1).
    apply tick_all_frame. }
  intros n Hpins. apply fire_level_other. exact Hpins.
Qed.

Lemma X10_witness :
  let m := {| regs := fun r => match r with TIFR => 0x1A | _ => 0 end;
              sreg_i := true; statics := ∅; ddr := ∅; port := ∅;
              noise := lsfr1; trace := [] |} in
  regs (exec ISR_TIM0_COMPA m) TIFR = 0.
Proof.
  cbv zeta. unfold ISR_TIM0_COMPA.
  refine (proj1 (X10_fire_clears_all_flags timer _ _)).
  cbn [regs]. lia.
Defined.

(** X11. [n] iterations of [loop()] step the global LFSR [n] times and
    put exactly the bits it hands out on the noise pin, one pin operation
    per iteration and in order; the pin ends at the last bit; wave
    counters, timer registers and pin directions are not touched. *)
Theorem X11_loop_streams_lfsr_bits (n : nat) (m : Machine) :
  noise (loops n m) = LFSR.after n (noise m)
  /\ trace (loops n m) = trace m ++ map noise_event (LFSR.bits n (noise m))
  /\ level NoisePin (loops (S n) m) = LFSR_out n (noise m)
  /\ statics (loops n m) = statics m
  /\ regs (loops n m) = regs m
  /\ ddr (loops n m) = ddr m.
Proof.
  split; [apply loops_noise |]. split; [apply loops_trace |].
  split; [exact (loops_noise_level (S n) m) |].
  destruct (loops_frame n m) as (Hs & Hr & Hd & _).
  split; [exact Hs |]. split; [exact Hr | exact Hd].
Qed.

(** X12. Interrupts do not disturb the noise and the loop does not
    disturb the waves.  For a timer whose waves are pairwise different
    and use other pins than the noise pin, after any sequence of
    [loop()] iterations and compare-match handler runs: the noise
    register and the noise pin are what the iterations alone would have
    left, and every wave counter is what as many direct calls of
    [tick()] as there were handler runs would have left. *)
Theorem X12_interrupts_and_loop_do_not_interfere
    (T : TimerT) (s : list activity) (m : Machine)
    (Hnd : NoDup (map wave_key (waves_of (handlers T))))
    (Hpins : forall w, w ∈ waves_of (handlers T) -> pin w <> NoisePin) :
  let m' := interleave T s m in
  noise m' = noise (loops (iterations s) m)
  /\ level NoisePin m' = level NoisePin (loops (iterations s) m)
  /\ forall w, w ∈ waves_of (handlers T) ->
               Wave.counter w m' = Wave.counter w (ticks (fires s) w m).
Proof.
  cbv zeta.
  split; [rewrite interleave_noise, loops_noise; reflexivity |].
  split.
  - rewrite interleave_noise_level by exact Hpins.
    rewrite loops_noise_level. reflexivity.
  - intros w Hw. rewrite interleave_counter by assumption.
    rewrite counter_ticks. reflexivity.
Qed.

Lemma X12_witness :
  let m' := interleave timer [Loop; Fire; Loop; Fire; Fire] reset in
  noise m' = LFSR.after 2 lsfr1 /\ Wave.counter wave2 m' = 3.
Proof.
  cbv zeta.
  assert (Hnd : NoDup (map wave_key (waves_of (handlers timer))))
    by compute_done.
  assert (Hpins : forall w, w ∈ waves_of (handlers timer) -> pin w <> NoisePin).
  { intros w Hw. apply list_elem_of_In in Hw. simpl in Hw.
    destruct Hw as [<- | [<- | [<- | [<- | []]]]]; discriminate. }
  destruct (X12_interrupts_and_loop_do_not_interfere
              timer [Loop; Fire; Loop; Fire; Fire] reset Hnd Hpins)
    as (Hn & _ & Hc).
  cbv zeta in Hn, Hc. split.
  - rewrite Hn. reflexivity.
  - rewrite (Hc wave2); [reflexivity |].
    apply list_elem_of_In. simpl. tauto.
Defined.

(** X13. The whole program, for any timer with pairwise different waves:
    after [setup()], [sei()] and any sequence of [loop()] iterations and
    compare-match handler runs, the noise register is the seed register
    stepped once per iteration, and every wave counter is the number of
    handler runs plus one (the call made by [begin()]) modulo the length
    of the wave's counter cycle. *)
Theorem X13_program_state_after_any_run
    (T : TimerT) (s : list activity)
    (Hnd : NoDup (map wave_key (waves_of (handlers T)))) :
  let m := interleave T s (exec (main_init T) reset) in
  noise m = LFSR.after (iterations s) lsfr1
  /\ forall w, w ∈ waves_of (handlers T) ->
       Wave.counter w m =
         Z.of_nat (S (fires s))
           mod (if Wave.period_ticks w <=? 254
                then Wave.period_ticks w + 2 else 256).
Proof.
  cbv zeta. split.
  - rewrite interleave_noise.
    destruct (waves_of (handlers T)) as [| w0 ws] eqn:Hws.
    + unfold main_init, setup_with. rewrite !exec_seq.
      rewrite sei_noise.
      destruct (Timer_begin_split T (exec (FastPin.setOutput NoisePin) reset))
        as (m0 & -> & _ & _ & _ & Hno & _).
      rewrite begin_all_noise, Hno. reflexivity.
    + rewrite <- Hws in Hnd.
      destruct (main_init_counter T w0 Hnd) as [_ ->]; [| reflexivity].
      rewrite Hws. apply elem_of_cons. left. reflexivity.
  - intros w Hw. rewrite interleave_counter by assumption.
    destruct (main_init_counter T w Hnd Hw) as [-> _].
    assert (HP : (if Wave.period_ticks w <=? 254
                  then Wave.period_ticks w + 2 else 256) = cycle_ticks w).
    { unfold cycle_ticks. pose proof (period_ticks_range w).
      destruct (Z.leb_spec (Wave.period_ticks w) 254); lia. }
    rewrite HP, <- counter_after_mod.
    unfold counter_after. rewrite counter_ticks.
    rewrite Nat.iter_succ_r. unfold Wave.counter at 1.
    cbn [reset statics]. rewrite lookup_empty. reflexivity.
Qed.

Lemma X13_witness :
  let m := interleave timer [Fire; Loop; Fire] (exec (main_init timer) reset) in
  noise m = LFSR.after 1 lsfr1 /\ Wave.counter wave3 m = 3.
Proof.
  cbv zeta.
  assert (Hnd : NoDup (map wave_key (waves_of (handlers timer))))
    by compute_done.
  destruct (X13_program_state_after_any_run timer [Fire; Loop; Fire] Hnd)
    as [Hn Hc].
  cbv zeta in Hn, Hc. split; [exact Hn |].
  rewrite (Hc wave3); [reflexivity |].
  apply list_elem_of_In. simpl. tauto.
Defined.
